(** * Optimal binary pebbling for one-way hash chain reversal

    A shallow embedding of the schedule formula [tS] and of the recursive
    pebbler [P] of the notebook "Multiparty One-Way Hash Chains Explained"
    (cell 6), together with the properties of the schedule and of the
    generator that the specification states.

    Python integers are [Z]; loop counters and list indices that the code
    keeps non-negative are [nat].  A Python generator is a state machine:
    [gen] is the suspended frame, [step] is one call of [next()]. *)

From Stdlib Require Import ZArith Lia List.
From stdpp Require Import base numbers list.
Local Open Scope Z_scope.

(** ** The schedule formula *)

(** [int.bit_length()]: the number of bits of the absolute value; [0] for [0]. *)
Definition bit_length (v : Z) : Z :=
  if v =? 0 then 0 else Z.log2 (Z.abs v) + 1.

(** The test [r < 2**(k-1)].  For [k <= 0] the right-hand side is a float
    in (0, 0.5], so the test holds exactly when [r <= 0]. *)
Definition below_half (k r : Z) : bool :=
  if k <=? 0 then r <? 1 else r <? 2 ^ (k - 1).

(** [tS = lambda k, r: 0 if r < 2**(k-1) else
      ((k+r)%2 + k+1 - ((2*r) % (2**(2**k-r).bit_length())).bit_length()) // 2].
    The moduli are positive, so [%] is [Z.modulo]; [//] is floor division.
    The pebbler calls [tS] with [k >= 1] only; for [k < 0] and [r >= 1]
    Python fails on the float [2**k]. *)
Definition tS (k r : Z) : Z :=
  if below_half k r then 0
  else ((k + r) mod 2 + k + 1
        - bit_length ((2 * r) mod 2 ^ bit_length (2 ^ k - r))) / 2.

(** [zsum g n] is [g 1 + ... + g n]. *)
Fixpoint zsum (g : Z -> Z) (n : nat) : Z :=
  match n with
  | O => 0
  | S n' => zsum g n' + g (Z.of_nat n)
  end.

(** [nsum g n] is [g 0 + ... + g (n-1)]. *)
Fixpoint nsum (g : nat -> nat) (n : nat) : nat :=
  match n with
  | O => 0%nat
  | S n' => (nsum g n' + g n')%nat
  end.

(** The schedule read backwards from the end of the build phase: for
    [s = 2^k - r] the subtracted bit length depends on [s] only. *)
Definition carry_len (s : Z) : Z :=
  bit_length ((- (2 * s)) mod 2 ^ bit_length s).

Definition tS_back (k s : Z) : Z :=
  ((k + s) mod 2 + k + 1 - carry_len s) / 2.

Definition tS_top (k u : Z) : Z :=
  ((k + u) mod 2 + k - bit_length u) / 2.

(** Number of advances of an order-[k] pebbler in rounds [1 .. r]. *)
Fixpoint cum (k r : nat) : nat :=
  match r with
  | O => 0%nat
  | S r' => (cum k r' + Z.to_nat (tS (Z.of_nat k) (Z.of_nat r)))%nat
  end.

(** ** The pebbler *)

(** The exceptions the code can raise: [TypeError] from [range(1, 2**k)]
    with a float bound (negative [k]) or from [f(None)]; [IndexError] from
    a list index out of range; [RuntimeError] from [next()] on an empty
    [filter] inside a generator.  [Unmodelled] marks the one branch that is
    left out: an advance with [i = 0] and [g = 0], where Python goes on with
    [i = -1] and the float [g = 0.5]. *)
Inductive error : Set := TypeError | IndexError | RuntimeError | Unmodelled.

(** The one-way function, an injected dependency, and the truth value that
    Python gives a Block (a non-empty list, as the 4x4 matrices of the
    notebook, is true). *)
Class OneWay (Block : Type) : Type := {
  f : Block -> Block;
  truthy : Block -> bool
}.

Section Pebbler.
Context {Block : Type} {OW : OneWay Block}.

(** A list entry or a yielded value: a Block or Python's [None]. *)
Definition slot : Type := option Block.

(** The locals [(y, i, g)]. *)
Definition cursor : Type := (list slot * nat * nat)%type.

(** One evaluation of [f]: the order of the pebbler and the slot written. *)
Definition event : Type := (nat * nat)%type.

Inductive outcome : Type :=
| Yield (v : slot)
| Stop
| Raise (e : error).

(** The suspended generator: not yet started; suspended at the [yield] of
    build round [r]; suspended at [yield y[0]]; suspended in the
    [zip_longest] loop with its sub-generators; exhausted (by returning or
    by an exception). *)
#[local] Unset Elimination Schemes.
Inductive gen : Type :=
| Created (k : Z) (x : slot)
| Building (k : nat) (c : cursor) (r : nat)
| Emitted (k : nat) (y : list slot)
| Zipping (k : nat) (y : list slot) (subs : list gen)
| Finished.
#[local] Set Elimination Schemes.

Definition result : Type := ((list event * outcome) * gen)%type.

(** Calling the generator function runs none of its body. *)
Definition P (k : Z) (x : slot) : gen := Created k x.

(** One pass through the inner loop body:
    [z = y[i]; if g == 0: i -= 1; g = 2**i; y[i] = f(z); g -= 1].
    Reading [y[i]] fails out of range, [f(None)] fails in the one-way
    function; moving the cursor fails nowhere in Python, so the check of
    [z] comes first.  The slot written lies below one that was read, so the
    store is in range. *)
Definition advance (c : cursor) : error + cursor :=
  let '(y, i, g) := c in
  match y !! i with
  | None => inl IndexError
  | Some None => inl TypeError
  | Some (Some z) =>
      match g, i with
      | O, O => inl Unmodelled
      | O, S i' => inr (<[i' := Some (f z)]> y, i', (2 ^ i' - 1)%nat)
      | S g', _ => inr (<[i := Some (f z)]> y, i, g')
      end
  end.

(** [for _ in range(n)]: the slots written, and the cursor or the error. *)
Fixpoint advances (n : nat) (c : cursor) : list nat * (error + cursor) :=
  match n with
  | O => ([], inr c)
  | S n' =>
      match advance c with
      | inl e => ([], inl e)
      | inr c' => let '(ws, res) := advances n' c' in (c'.1.2 :: ws, res)
      end
  end.

(** The body of [for r in range(1, 2**k)] up to its [yield]. *)
Definition round (k : nat) (c : cursor) (r : nat) : result :=
  match advances (Z.to_nat (tS (Z.of_nat k) (Z.of_nat r))) c with
  | (ws, inr c') => ((map (pair k) ws, Yield None), Building k c' r)
  | (ws, inl e) => ((map (pair k) ws, Raise e), Finished)
  end.

(** The loop header with next value [r]; after the loop, [yield y[0]]. *)
Definition next_round (k : nat) (c : cursor) (r : nat) : result :=
  if (r <? 2 ^ k)%nat then round k c r
  else match c.1.1 !! 0%nat with
       | Some v => (([], Yield v), Emitted k c.1.1)
       | None => (([], Raise IndexError), Finished)
       end.

(** The first [next()]: [y = [None]*k + [x]; i = k; g = 0], then the loop. *)
Definition init_cursor (k : nat) (x : slot) : cursor :=
  (replicate k None ++ [x], k, 0%nat).

Definition start (k : Z) (x : slot) : result :=
  if k <? 0 then (([], Raise TypeError), Finished)
  else next_round (Z.to_nat k) (init_cursor (Z.to_nat k) x) 1.

(** The arguments of the calls [P(i-1, y[i]) for i in range(1, k+1)]. *)
Definition spawn (k : nat) (y : list slot) : option (list (Z * slot)) :=
  mapM (fun i : nat => pair (Z.of_nat i - 1) <$> y !! i) (seq 1 k).

(** [zip_longest] calls [next()] on its iterators from left to right; the
    first exception other than [StopIteration] ends the round. *)
Fixpoint first_raise (rs : list result) : option (list event * error) :=
  match rs with
  | [] => None
  | ((evs, Raise e), _) :: _ => Some (evs, e)
  | ((evs, _), _) :: rest =>
      match first_raise rest with
      | Some (evs', e) => Some (evs ++ evs', e)
      | None => None
      end
  end.

Definition is_stop (o : outcome) : bool :=
  match o with Stop => true | _ => false end.

(** The tuple entry of an iterator: its value, or the fill value [None]. *)
Definition fill (o : outcome) : slot :=
  match o with Yield v => v | _ => None end.

(** Python truth value, as [filter(None, v)] tests it. *)
Definition is_true (v : slot) : bool :=
  match v with Some b => truthy b | None => false end.

(** One round of [for v in zip_longest(...): yield next(filter(None, v))],
    given the results of [next()] on the sub-generators. *)
Definition zip_next (k : nat) (y : list slot) (rs : list result) : result :=
  match first_raise rs with
  | Some (evs, e) => ((evs, Raise e), Finished)
  | None =>
      let evs := concat (map (fun r : result => r.1.1) rs) in
      if forallb (fun r : result => is_stop r.1.2) rs
      then ((evs, Stop), Finished)
      else match head (List.filter is_true (map (fun r : result => fill r.1.2) rs)) with
           | Some v => ((evs, Yield v), Zipping k y (map snd rs))
           | None => ((evs, Raise RuntimeError), Finished)
           end
  end.

(** One call of [next()]. *)
Fixpoint step (s : gen) : result :=
  match s with
  | Created k x => start k x
  | Building k c r => next_round k c (S r)
  | Emitted k y =>
      match spawn k y with
      | Some args => zip_next k y (map (fun a : Z * slot => start a.1 a.2) args)
      | None => (([], Raise IndexError), Finished)
      end
  | Zipping k y subs => zip_next k y (map step subs)
  | Finished => (([], Stop), Finished)
  end.

(** The generator after [n] calls, and what call [n+1] returns. *)
Fixpoint steps (n : nat) (s : gen) : gen :=
  match n with
  | O => s
  | S n' => (step (steps n' s)).2
  end.

Definition obs (n : nat) (s : gen) : list event * outcome :=
  (step (steps n s)).1.

Definition run (n : nat) (s : gen) : list (list event * outcome) :=
  map (fun m => obs m s) (seq 0 n).

(** Number of evaluations of [f] in call [n+1]. *)
Definition cost (n : nat) (s : gen) : nat := length (obs n s).1.

(** The Blocks held in the slot arrays of a generator and of the
    sub-generators it keeps.  A generator that has not started has no
    array yet; the array [y] of a started one stays referenced from its
    frame until the generator is exhausted. *)
Fixpoint held (s : gen) : list Block :=
  match s with
  | Created _ _ => []
  | Building _ c _ => omap id c.1.1
  | Emitted _ y => omap id y
  | Zipping _ y subs => omap id y ++ concat (map held subs)
  | Finished => []
  end.

(** The entries of the arrays still in use when a generator in its
    emission phase is taken to have released its own array: slot [0] is
    yielded and the other slots are the seeds of the sub-generators. *)
Fixpoint in_use (s : gen) : nat :=
  match s with
  | Created _ _ => 1%nat
  | Building _ c _ => length (omap id c.1.1)
  | Emitted k _ => k
  | Zipping _ _ subs => list_sum (map in_use subs)
  | Finished => 0%nat
  end.

(** The largest value of a measure over the first [n] calls. *)
Definition peak (m : gen -> nat) (n : nat) (s : gen) : nat :=
  max_list (map (fun i => m (steps i s)) (seq 0 n)).

(** *** Reference values *)

(** The hash chain [x_i = f^i(x)]. *)
Definition chain (x : Block) (i : nat) : Block := Nat.iter i f x.

(** Every value of the chain of order [k] is true in Python's sense. *)
Definition chain_truthy (k : nat) (x : Block) : bool :=
  forallb (fun i => truthy (chain x i)) (seq 0 (2 ^ k)).

(** The slot array after [N] advances, the cursor being in slot [i]. *)
Definition build_slots (k : nat) (x : Block) (i N : nat) : list slot :=
  replicate i None ++ Some (chain x N)
    :: map (fun j => Some (chain x (2 ^ k - 2 ^ j))) (seq (S i) (k - i)).

Definition build_inv (k : nat) (x : Block) (N : nat) (c : cursor) : Prop :=
  (c.1.2 <= k)%nat /\ (c.2 < 2 ^ c.1.2)%nat /\
  (N + c.2 + 2 ^ c.1.2 = 2 ^ k)%nat /\
  c.1.1 = build_slots k x c.1.2 N.

(** The slot array when the build phase is over. *)
Definition final_slots (k : nat) (x : Block) : list slot :=
  map (fun j => Some (chain x (2 ^ k - 2 ^ j))) (seq 0 (S k)).

(** The sub-generators as created: order [j], seeded from slot [j+1]. *)
Definition subs0 (k : nat) (x : Block) : list gen :=
  map (fun j => P (Z.of_nat j) (Some (chain x (2 ^ k - 2 ^ S j)))) (seq 0 k).

(** The slots a cursor writes in [n] advances. *)
Fixpoint writes (n i g : nat) : list nat :=
  match n with
  | O => []
  | S n' =>
      match g, i with
      | O, O => []
      | O, S i' => i' :: writes n' i' (2 ^ i' - 1)
      | S g', _ => i :: writes n' i g'
      end
  end.

(** What call [n+1] of [P(k, x)] returns. *)
Definition out_spec (k : nat) (x : Block) (n : nat) : outcome :=
  if (n <? 2 ^ k - 1)%nat then Yield None
  else if (n <? 2 ^ (k + 1) - 1)%nat
       then Yield (Some (chain x (2 ^ (k + 1) - 2 - n)))
       else Stop.

(** What call [t+1] of the sub-generator of order [j] of [P(k, x)] returns. *)
Definition sub_spec (k : nat) (x : Block) (j t : nat) : outcome :=
  if (t <? 2 ^ j - 1)%nat then Yield None
  else if (t <? 2 ^ S j - 1)%nat
       then Yield (Some (chain x (2 ^ k - 2 - t)))
       else Stop.

Definition outputs_ok (k : nat) : Prop :=
  forall x, chain_truthy k x = true ->
  forall n, (obs n (P (Z.of_nat k) (Some x))).2 = out_spec k x n.

(** The sub-generator of order [j] of [P(k, x)], as created. *)
Definition sub (k : nat) (x : Block) (j : nat) : gen :=
  P (Z.of_nat j) (Some (chain x (2 ^ k - 2 ^ S j))).

(** The sub-generators that the next call will poll, in the order of
    their creation: those about to be created, or those kept. *)
Definition subgens (s : gen) : list gen :=
  match s with
  | Emitted k y =>
      match spawn k y with
      | Some args => map (fun a : Z * slot => P a.1 a.2) args
      | None => []
      end
  | Zipping _ _ subs => subs
  | _ => []
  end.

(** The tuple [v] that [zip_longest] hands to the next round. *)
Definition tuple (s : gen) : list slot :=
  map (fun s' => fill (step s').1.2) (subgens s).

(** The tuple of emission round [n + t] of [P(k, x)], [n = 2^k]. *)
Definition polled (k : nat) (x : Block) (t : nat) : list slot :=
  tuple (steps (2 ^ k - 1 + t) (P (Z.of_nat k) (Some x))).

(** The first entry of a tuple that is not [None]. *)
Fixpoint first_value (v : list slot) : option Block :=
  match v with
  | [] => None
  | Some b :: _ => Some b
  | None :: v' => first_value v'
  end.

(** The part of a round's result that the schedule alone decides. *)
Inductive kind : Set := Pending | Value | Exhausted | Failed.

Definition kind_of (o : outcome) : kind :=
  match o with
  | Yield None => Pending
  | Yield (Some _) => Value
  | Stop => Exhausted
  | Raise _ => Failed
  end.

Definition shape (o : list event * outcome) : list event * kind :=
  (o.1, kind_of o.2).
End Pebbler.

(** ** A concrete instance

    Blocks are 4x4 matrices of bytes as in the notebook; a toy function
    stands in for the AES-based one; the truth value is that of a Python
    list. *)
Definition Matrix : Type := list (list Z).

Definition toy_f (m : Matrix) : Matrix :=
  map (map (fun v => (5 * v + 1) mod 256)) m.

Definition list_truth (m : Matrix) : bool :=
  match m with [] => false | _ => true end.

#[local] Instance toy : OneWay Matrix := {| f := toy_f; truthy := list_truth |}.

Definition seed0 : Matrix :=
  [[1; 2; 3; 4]; [5; 6; 7; 8]; [9; 10; 11; 12]; [13; 14; 15; 16]].

(** An instance whose Blocks are Python integers: [0] is false. *)
Definition int_oneway : OneWay Z :=
  {| f := fun v => v + 1; truthy := fun v => negb (v =? 0) |}.

(** ** The driver of the notebook (cell 7)

    For one order [k] of [for k in range(4)]: the header, one line per
    round of [for v in P(k, x0)] with the round number [r] counted from 1,
    and the closing empty line.  A line is kept as data: the numbers and
    the value that the format strings print. *)
Section Driver.
Context {Block : Type} {OW : OneWay Block}.

Inductive line : Type :=
| Header (k : nat) (len rounds : Z)
| Dash (r : nat)
| Labelled (r : nat) (i : Z) (v : Block)
| Blank.

(** How the loop over the generator ends: by [StopIteration], by another
    exception, or not within the calls allowed. *)
Inductive ending : Set := Printed | Aborted (e : error) | Unfinished.

(** [for v in P(k, x0)]: [if v is None: print(r, '-')] [else:
    xprint(r, 'x{2**(k+1) - 1 - r}=', v)]; [r += 1]. *)
Fixpoint print_rounds (fuel : nat) (k : nat) (s : gen) (r : nat)
  : list line * ending :=
  match fuel with
  | O => ([], Unfinished)
  | S fuel' =>
      match step s with
      | ((_, Yield None), s') =>
          let '(ls, e) := print_rounds fuel' k s' (S r) in (Dash r :: ls, e)
      | ((_, Yield (Some v)), s') =>
          let '(ls, e) := print_rounds fuel' k s' (S r) in
          (Labelled r (2 ^ (Z.of_nat k + 1) - 1 - Z.of_nat r) v :: ls, e)
      | ((_, Stop), _) => ([], Printed)
      | ((_, Raise e), _) => ([], Aborted e)
      end
  end.

Definition print_chain (fuel : nat) (k : nat) (x0 : Block) : list line * ending :=
  let '(ls, e) := print_rounds fuel k (P (Z.of_nat k) (Some x0)) 1 in
  (Header k (2 ^ Z.of_nat k) (2 ^ (Z.of_nat k + 1) - 1)
     :: ls ++ match e with Printed => [Blank] | _ => [] end, e).
End Driver.

Section PrefixDef.
Context {Block : Type} {OW : OneWay Block}.

(** What an order-[j] pebbler does when the chain values of index [m] and
    above, the top one apart, are true: the rounds that reveal them go as
    [out_spec] says, and if the value of index [m - 1] is false, the round
    in which it is due raises [RuntimeError] and ends the generator. *)
Definition prefix_ok (j : nat) : Prop :=
  forall y m,
    (m <= 2 ^ j - 1)%nat ->
    (forall i, (m <= i)%nat -> (i + 2 <= 2 ^ j)%nat -> truthy (chain y i) = true) ->
    (forall n, (n + m + 2 <= 2 ^ (j + 1))%nat ->
       (obs n (P (Z.of_nat j) (Some y))).2 = out_spec j y n)
    /\ ((1 <= m)%nat -> truthy (chain y (m - 1)) = false ->
        exists evs,
          step (steps (2 ^ (j + 1) - 1 - m) (P (Z.of_nat j) (Some y)))
          = ((evs, Raise RuntimeError), Finished)).
End PrefixDef.

(** * Properties of the schedule formula *)

Lemma bit_length_0 : bit_length 0 = 0.
Proof. reflexivity. Qed.

Lemma bit_length_pos v : 0 < v -> bit_length v = Z.log2 v + 1.
Proof.
  intros Hv. unfold bit_length.
  destruct (Z.eqb_spec v 0); [lia|]. now rewrite Z.abs_eq by lia.
Qed.

Lemma bit_length_unique v l :
  1 <= l -> 2 ^ (l - 1) <= v < 2 ^ l -> bit_length v = l.
Proof.
  intros Hl Hv.
  assert (0 < 2 ^ (l - 1)) by (apply Z.pow_pos_nonneg; lia).
  rewrite bit_length_pos by lia.
  rewrite (Z.log2_unique v (l - 1)); [lia|lia|].
  replace (Z.succ (l - 1)) with l by lia. exact Hv.
Qed.

Lemma bit_length_bounds v :
  0 < v -> 1 <= bit_length v /\ 2 ^ (bit_length v - 1) <= v < 2 ^ bit_length v.
Proof.
  intros Hv. rewrite bit_length_pos by lia.
  pose proof (Z.log2_nonneg v).
  pose proof (Z.log2_spec v Hv).
  replace (Z.log2 v + 1 - 1) with (Z.log2 v) by lia.
  replace (Z.log2 v + 1) with (Z.succ (Z.log2 v)) by lia. lia.
Qed.

Lemma bit_length_nonneg v : 0 <= bit_length v.
Proof.
  unfold bit_length. destruct (v =? 0); [lia|].
  pose proof (Z.log2_nonneg (Z.abs v)). lia.
Qed.

Lemma bit_length_le v l : 0 <= l -> 0 <= v < 2 ^ l -> bit_length v <= l.
Proof.
  intros Hl Hv. destruct (Z.eq_dec v 0) as [->|Hn]; [now rewrite bit_length_0|].
  destruct (bit_length_bounds v) as [H1 [H2 _]]; [lia|].
  destruct (Z.le_gt_cases (bit_length v) l) as [|Hgt]; [assumption|exfalso].
  assert (2 ^ l <= 2 ^ (bit_length v - 1)) by (apply Z.pow_le_mono_r; lia).
  lia.
Qed.

Lemma bit_length_double u : 0 < u -> bit_length (2 * u) = bit_length u + 1.
Proof.
  intros Hu. rewrite !bit_length_pos by lia.
  rewrite Z.log2_double by lia. lia.
Qed.

(** Sums *)
Lemma zsum_ext g h n :
  (forall s, 1 <= s <= Z.of_nat n -> g s = h s) -> zsum g n = zsum h n.
Proof.
  induction n as [|n IH]; intros E; [reflexivity|].
  cbn [zsum]. rewrite IH, E; [reflexivity|lia|]. intros s Hs. apply E. lia.
Qed.

Lemma zsum_plus g h n :
  zsum (fun s => g s + h s) n = zsum g n + zsum h n.
Proof. induction n as [|n IH]; cbn [zsum]; lia. Qed.

Lemma zsum_app g n m :
  zsum g (n + m) = zsum g n + zsum (fun s => g (Z.of_nat n + s)) m.
Proof.
  induction m as [|m IH].
  - rewrite Nat.add_0_r. cbn [zsum]. lia.
  - rewrite Nat.add_succ_r. cbn [zsum]. rewrite IH.
    replace (Z.of_nat (S (n + m))) with (Z.of_nat n + Z.of_nat (S m)) by lia. lia.
Qed.

Lemma zsum_const c n :
  zsum (fun _ => c) n = Z.of_nat n * c.
Proof. induction n as [|n IH]; cbn [zsum]; lia. Qed.

Lemma zsum_rev g n :
  zsum g n = zsum (fun s => g (Z.of_nat n + 1 - s)) n.
Proof.
  induction n as [|n IH]; [reflexivity|].
  change (S n) with (1 + n)%nat at 3. rewrite zsum_app.
  cbn [zsum]. rewrite IH.
  replace (Z.of_nat (S n) + 1 - Z.of_nat 1) with (Z.of_nat (S n)) by lia.
  assert (E : zsum (fun s => g (Z.of_nat n + 1 - s)) n
              = zsum (fun s => g (Z.of_nat (S n) + 1 - (Z.of_nat 1 + s))) n).
  { apply zsum_ext. intros s _. f_equal. lia. }
  lia.
Qed.

Lemma zsum_nonneg g n :
  (forall s, 1 <= s <= Z.of_nat n -> 0 <= g s) -> 0 <= zsum g n.
Proof.
  induction n as [|n IH]; intros E; cbn [zsum]; [lia|].
  assert (0 <= zsum g n) by (apply IH; intros; apply E; lia).
  assert (0 <= g (Z.of_nat (S n))) by (apply E; lia). lia.
Qed.

(** Parity *)
Lemma parity_pair c : (1 - (c + 1) mod 2) + (1 - c mod 2) = 1.
Proof. Z.div_mod_to_equations. lia. Qed.

Lemma zsum_parity c m :
  zsum (fun s => 1 - (c + s) mod 2) (2 * m) = Z.of_nat m.
Proof.
  induction m as [|m IH]; [reflexivity|].
  replace (2 * S m)%nat with (S (S (2 * m))) by lia.
  cbn [zsum]. rewrite IH.
  pose proof (parity_pair (c + Z.of_nat (S (2 * m)))) as P.
  replace (c + Z.of_nat (S (2 * m)) + 1) with (c + Z.of_nat (S (S (2 * m)))) in P by lia.
  lia.
Qed.

(** Raising the order by one adds an evaluation exactly where [k + s] is
    even: the subtracted bit length does not depend on the order. *)
Lemma half_flip a k s :
  ((k + 1 + s) mod 2 + (k + 1) + 1 - a) / 2
  = ((k + s) mod 2 + k + 1 - a) / 2 + (1 - (k + s) mod 2).
Proof. Z.div_mod_to_equations. lia. Qed.

Lemma pow2_nat (k : nat) : Z.of_nat (2 ^ k) = 2 ^ Z.of_nat k.
Proof. rewrite Nat2Z.inj_pow. reflexivity. Qed.

Lemma pow2_pos (k : Z) : 0 <= k -> 0 < 2 ^ k.
Proof. intros. apply Z.pow_pos_nonneg; lia. Qed.

Lemma pow2_succ (k : Z) : 0 <= k -> 2 ^ (k + 1) = 2 * 2 ^ k.
Proof. intros. rewrite Z.pow_add_r by lia. lia. Qed.

Lemma pow2_pred (k : Z) : 1 <= k -> 2 ^ k = 2 * 2 ^ (k - 1).
Proof. intros. rewrite <- pow2_succ by lia. f_equal. lia. Qed.

Lemma tS_low k r : 1 <= k -> r < 2 ^ (k - 1) -> tS k r = 0.
Proof.
  intros Hk Hr. unfold tS, below_half.
  destruct (Z.leb_spec k 0); [lia|].
  destruct (Z.ltb_spec r (2 ^ (k - 1))); [reflexivity|lia].
Qed.

(** In the second half of the build phase, round [2^k - s] does what
    [tS_back] says of [s]. *)
Lemma tS_mirror k s :
  1 <= k -> 1 <= s <= 2 ^ (k - 1) -> tS k (2 ^ k - s) = tS_back k s.
Proof.
  intros Hk Hs. unfold tS, below_half, tS_back, carry_len.
  pose proof (pow2_pred k Hk) as E.
  destruct (Z.leb_spec k 0); [lia|].
  destruct (Z.ltb_spec (2 ^ k - s) (2 ^ (k - 1))); [lia|].
  replace (2 ^ k - (2 ^ k - s)) with s by lia.
  assert (Hl : 1 <= bit_length s <= k).
  { split; [apply bit_length_bounds; lia|].
    apply bit_length_le; [lia|]. lia. }
  assert (Em : (2 * (2 ^ k - s)) mod 2 ^ bit_length s
               = (- (2 * s)) mod 2 ^ bit_length s).
  { replace (2 * (2 ^ k - s))
      with (- (2 * s) + 2 ^ (k + 1 - bit_length s) * 2 ^ bit_length s).
    - apply Z_mod_plus_full.
    - rewrite <- Z.pow_add_r by lia.
      replace (k + 1 - bit_length s + bit_length s) with (k + 1) by lia.
      rewrite pow2_succ by lia. lia. }
  rewrite Em.
  replace (k + (2 ^ k - s)) with (k + s + (2 ^ (k - 1) - s) * 2) by lia.
  rewrite Z_mod_plus_full. reflexivity.
Qed.

Lemma tS_back_upper K j u :
  1 <= j -> 1 <= u < 2 ^ (j - 1) -> tS_back K (2 ^ j - u) = tS_top K u.
Proof.
  intros Hj Hu. unfold tS_back, tS_top, carry_len.
  pose proof (pow2_pred j Hj) as E.
  rewrite (bit_length_unique (2 ^ j - u) j) by lia.
  replace (- (2 * (2 ^ j - u))) with (2 * u + (-2) * 2 ^ j) by lia.
  rewrite Z_mod_plus_full, (Z.mod_small (2 * u)) by lia.
  rewrite bit_length_double by lia.
  replace (K + (2 ^ j - u)) with (K + u + (2 ^ (j - 1) - u) * 2) by lia.
  rewrite Z_mod_plus_full. f_equal. lia.
Qed.

Lemma tS_back_pow K j :
  0 <= j -> tS_back K (2 ^ j) = ((K + 2 ^ j) mod 2 + K + 1) / 2.
Proof.
  intros Hj. unfold tS_back, carry_len.
  rewrite (bit_length_unique (2 ^ j) (j + 1)).
  - replace (- (2 * 2 ^ j)) with (0 + (-1) * 2 ^ (j + 1)) by (rewrite pow2_succ; lia).
    rewrite Z_mod_plus_full, Z.mod_0_l.
    + rewrite bit_length_0. f_equal. lia.
    + pose proof (pow2_pos (j + 1)). lia.
  - lia.
  - replace (j + 1 - 1) with j by lia. rewrite pow2_succ by lia.
    pose proof (pow2_pos j Hj). lia.
Qed.

Lemma tS_top_block K j u :
  1 <= j -> 2 ^ (j - 1) <= u < 2 ^ j -> tS_top K u = ((K + u) mod 2 + K - j) / 2.
Proof.
  intros Hj Hu. unfold tS_top. now rewrite (bit_length_unique u j).
Qed.

Lemma pow2_nat_pos (k : nat) : (1 <= 2 ^ k)%nat.
Proof. induction k; cbn [Nat.pow]; lia. Qed.

(** The two facts about [2 ^ k] that the arithmetic on round numbers needs:
    it is positive, and [2 ^ (k + 1)] is its double. *)
Ltac pow2_facts k :=
  pose proof (pow2_nat_pos k);
  assert ((2 ^ (k + 1) = 2 * 2 ^ k)%nat)
    by (rewrite Nat.add_1_r; apply Nat.pow_succ_r').

Lemma zsum_parity_odd c (m : nat) :
  (1 <= m)%nat ->
  zsum (fun s => 1 - (c + s) mod 2) (2 * m - 1) = Z.of_nat m - (1 - c mod 2).
Proof.
  intros Hm. pose proof (zsum_parity c m) as E.
  replace (2 * m)%nat with (S (2 * m - 1)) in E by lia.
  cbn [zsum] in E.
  replace (c + Z.of_nat (S (2 * m - 1))) with (c + Z.of_nat m * 2) in E by lia.
  rewrite Z_mod_plus_full in E. lia.
Qed.

(** The rounds [2^(k+1) - u] of order [k + 2], for [u] below [2^k]. *)
Lemma tS_top_sum (k : nat) :
  zsum (tS_top (Z.of_nat k + 3)) (2 ^ (k + 1) - 1)
  = 3 * 2 ^ Z.of_nat k - ((Z.of_nat k + 1) mod 2 + Z.of_nat k + 4) / 2.
Proof.
  induction k as [|k IH]; [reflexivity|].
  set (K := Z.of_nat k) in *.
  replace (Z.of_nat (S k)) with (K + 1) by lia.
  assert (HK : 0 <= K) by lia.
  pose proof (pow2_nat_pos (k + 1)) as Hp.
  assert (EN : (2 ^ (S k + 1) = 2 * 2 ^ (k + 1))%nat)
    by (replace (S k + 1)%nat with (S (k + 1)) by lia; apply Nat.pow_succ_r').
  assert (EN' : (2 ^ (k + 1) = 2 * 2 ^ k)%nat)
    by (replace (k + 1)%nat with (S k) by lia; apply Nat.pow_succ_r').
  replace (2 ^ (S k + 1) - 1)%nat with ((2 ^ (k + 1) - 1) + 2 ^ (k + 1))%nat by lia.
  rewrite zsum_app.
  assert (EP : Z.of_nat (2 ^ (k + 1)) = 2 * 2 ^ K).
  { rewrite pow2_nat, Nat2Z.inj_add. fold K. now rewrite pow2_succ. }
  rewrite (zsum_ext _ (fun u => tS_top (K + 3) u + (1 - (K + 3 + u) mod 2))).
  2:{ intros u _. unfold tS_top.
      pose proof (half_flip (bit_length u + 1) (K + 3) u) as F.
      replace (K + 1 + 3 + u) with (K + 3 + 1 + u) by lia.
      replace ((K + 3 + 1 + u) mod 2 + (K + 1 + 3) - bit_length u)
        with ((K + 3 + 1 + u) mod 2 + (K + 3 + 1) + 1 - (bit_length u + 1)) by lia.
      rewrite F. f_equal. f_equal. lia. }
  rewrite zsum_plus, IH.
  replace (2 ^ (k + 1) - 1)%nat with (2 * 2 ^ k - 1)%nat by lia.
  rewrite zsum_parity_odd by apply pow2_nat_pos.
  replace (2 * 2 ^ k - 1)%nat with (2 ^ (k + 1) - 1)%nat by lia.
  rewrite (zsum_ext _ (fun _ => 1)).
  2:{ intros u Hu.
      rewrite (tS_top_block _ (K + 2)).
      - Z.div_mod_to_equations. lia.
      - lia.
      - replace (K + 2 - 1) with (K + 1) by lia.
        replace (K + 2) with (K + 1 + 1) by lia.
        rewrite (pow2_succ (K + 1)), (pow2_succ K) by lia. lia. }
  rewrite zsum_const, EP, pow2_nat. fold K.
  rewrite (pow2_succ K) by lia.
  Z.div_mod_to_equations. lia.
Qed.

Lemma tS_back_flip k s : tS_back (k + 1) s = tS_back k s + (1 - (k + s) mod 2).
Proof. unfold tS_back. apply half_flip. Qed.

(** The second half of the build phase of order [k + 1] does all the work:
    by induction on the order, the lower half of the rounds through
    [tS_back_flip] and the upper half through [tS_top_sum]. *)
Lemma tS_back_sum (k : nat) :
  zsum (tS_back (Z.of_nat k + 1)) (2 ^ k) = 2 ^ (Z.of_nat k + 1) - 1.
Proof.
  induction k as [|k IH]; [reflexivity|].
  destruct k as [|k]; [reflexivity|].
  set (K := Z.of_nat (S k)) in *.
  assert (HK : 1 <= K) by lia.
  replace (Z.of_nat (S (S k))) with (K + 1) by lia.
  assert (EN : (2 ^ S (S k) = 2 ^ S k + ((2 ^ S k - 1) + 1))%nat).
  { pose proof (pow2_nat_pos (S k)). rewrite (Nat.pow_succ_r' 2 (S k)). lia. }
  assert (EP : Z.of_nat (2 ^ S k) = 2 ^ K) by apply pow2_nat.
  assert (EK : 2 ^ K = 2 * 2 ^ Z.of_nat k).
  { unfold K. rewrite Nat2Z.inj_succ, <- Z.add_1_r. apply pow2_succ. lia. }
  pose proof (pow2_pos (Z.of_nat k) ltac:(lia)) as Hpos.
  rewrite EN, zsum_app, zsum_app.
  (* lower half: one more evaluation on every other round *)
  rewrite (zsum_ext (tS_back (K + 1 + 1)) (fun s => tS_back (K + 1) s + (1 - (K + 1 + s) mod 2)))
    by (intros; apply tS_back_flip).
  rewrite zsum_plus, IH.
  rewrite (Nat.pow_succ_r' 2 k) at 1. rewrite zsum_parity.
  (* upper half, mirrored onto [tS_top] *)
  rewrite (zsum_ext _ (fun s => tS_top (Z.of_nat k + 3) (Z.of_nat (2 ^ (k + 1) - 1) + 1 - s))).
  2:{ intros s Hs.
      replace (2 ^ (k + 1))%nat with (2 ^ S k)%nat by (f_equal; lia).
      replace (Z.of_nat (2 ^ S k - 1)) with (2 ^ K - 1) in * by lia.
      rewrite EP.
      replace (2 ^ K + s) with (2 ^ (K + 1) - (2 ^ K - s)) by (rewrite pow2_succ; lia).
      rewrite tS_back_upper.
      - f_equal; lia.
      - lia.
      - replace (K + 1 - 1) with K by lia. lia. }
  replace (2 ^ S k - 1)%nat with (2 ^ (k + 1) - 1)%nat by (do 2 f_equal; lia).
  rewrite <- (zsum_rev (tS_top (Z.of_nat k + 3))), tS_top_sum.
  cbn [zsum].
  replace (Z.of_nat (2 ^ S k) + (Z.of_nat (2 ^ (k + 1) - 1) + Z.of_nat 1))
    with (2 ^ (K + 1)).
  2:{ replace (2 ^ (k + 1))%nat with (2 ^ S k)%nat by (f_equal; lia).
      pose proof (pow2_nat_pos (S k)). rewrite pow2_succ by lia. lia. }
  rewrite tS_back_pow by lia.
  rewrite pow2_nat, !(pow2_succ (K + 1)), !(pow2_succ K), EK by lia.
  replace K with (Z.of_nat k + 1) by lia.
  Z.div_mod_to_equations. lia.
Qed.

(** The build phase of an order-[k] pebbler evaluates [f] exactly
    [2^k - 1] times. *)
Theorem tS_sum (k : nat) :
  zsum (tS (Z.of_nat k)) (2 ^ k - 1) = 2 ^ Z.of_nat k - 1.
Proof.
  destruct k as [|k]; [reflexivity|].
  set (K := Z.of_nat (S k)).
  pose proof (pow2_nat_pos k) as Hp.
  assert (EN : (2 ^ S k - 1 = 2 ^ k + (2 ^ k - 1))%nat)
    by (rewrite Nat.pow_succ_r'; lia).
  assert (EP : Z.of_nat (2 ^ k) = 2 ^ (K - 1)).
  { rewrite pow2_nat. f_equal. lia. }
  assert (EK : 2 ^ K = 2 * 2 ^ (K - 1)) by (apply pow2_pred; lia).
  rewrite zsum_rev.
  replace (Z.of_nat (2 ^ S k - 1) + 1) with (2 ^ K) by lia.
  rewrite EN, zsum_app.
  rewrite (zsum_ext _ (tS_back K)) by (intros; apply tS_mirror; lia).
  rewrite (zsum_ext (fun s => tS K (2 ^ K - (Z.of_nat (2 ^ k) + s))) (fun _ => 0))
    by (intros; apply tS_low; lia).
  rewrite zsum_const.
  replace K with (Z.of_nat k + 1) by lia.
  rewrite tS_back_sum. lia.
Qed.

Lemma bit_length_eq_0 v : bit_length v = 0 -> v = 0.
Proof.
  unfold bit_length. destruct (Z.eqb_spec v 0); [easy|].
  pose proof (Z.log2_nonneg (Z.abs v)). lia.
Qed.

Lemma carry_len_range s : 1 <= s -> 0 <= carry_len s <= bit_length s.
Proof.
  intros Hs. unfold carry_len. split; [apply bit_length_nonneg|].
  destruct (bit_length_bounds s) as [Hl _]; [lia|].
  apply bit_length_le; [lia|].
  apply Z.mod_pos_bound, pow2_pos. lia.
Qed.

Lemma carry_len_zero_even s : 2 <= s -> carry_len s = 0 -> s mod 2 = 0.
Proof.
  intros Hs HA. unfold carry_len in HA. apply bit_length_eq_0 in HA.
  destruct (bit_length_bounds s) as [Hl [Hlo Hhi]]; [lia|].
  assert (2 <= bit_length s).
  { destruct (Z.eq_dec (bit_length s) 1) as [E|]; [|lia].
    rewrite E in Hhi. change (2 ^ 1) with 2 in Hhi. lia. }
  apply Z.mod_divide in HA; [|pose proof (pow2_pos (bit_length s)); lia].
  destruct HA as [q Hq].
  rewrite (pow2_pred (bit_length s)) in Hq by lia.
  rewrite (pow2_pred (bit_length s - 1)) in Hq by lia.
  replace s with (0 + (- q * 2 ^ (bit_length s - 1 - 1)) * 2) by lia.
  now rewrite Z_mod_plus_full.
Qed.

Lemma tS_back_range k s :
  1 <= k -> 1 <= s <= 2 ^ (k - 1) -> 0 <= tS_back k s <= k / 2 + 1.
Proof.
  intros Hk Hs. unfold tS_back.
  pose proof (carry_len_range s ltac:(lia)) as [HA0 HA].
  assert (bit_length s <= k).
  { apply bit_length_le; [lia|]. rewrite (pow2_pred k) by lia. lia. }
  Z.div_mod_to_equations. lia.
Qed.

Lemma tS_back_ceil k s :
  1 <= k -> 2 <= s <= 2 ^ (k - 1) -> tS_back k s <= (k + 1) / 2.
Proof.
  intros Hk Hs. unfold tS_back.
  pose proof (carry_len_range s ltac:(lia)) as [HA0 HA].
  destruct (Z.eq_dec (carry_len s) 0) as [E|].
  - pose proof (carry_len_zero_even s ltac:(lia) E). rewrite E.
    Z.div_mod_to_equations. lia.
  - Z.div_mod_to_equations. lia.
Qed.

Lemma tS_range (k : nat) (r : Z) :
  1 <= r <= 2 ^ Z.of_nat k - 1 ->
  0 <= tS (Z.of_nat k) r <= Z.of_nat k / 2 + 1.
Proof.
  intros Hr. destruct k as [|k]; [change (2 ^ Z.of_nat 0) with 1 in Hr; lia|].
  set (K := Z.of_nat (S k)) in *. assert (HK : 1 <= K) by lia.
  pose proof (pow2_pred K HK) as EK.
  destruct (Z.lt_ge_cases r (2 ^ (K - 1))) as [Hlt|Hge].
  - rewrite tS_low by lia. Z.div_mod_to_equations. lia.
  - replace r with (2 ^ K - (2 ^ K - r)) by lia.
    rewrite tS_mirror by lia. apply tS_back_range; lia.
Qed.

Lemma tS_ceil (k : nat) (r : Z) :
  1 <= r < 2 ^ Z.of_nat k - 1 ->
  tS (Z.of_nat k) r <= (Z.of_nat k + 1) / 2.
Proof.
  intros Hr. destruct k as [|k]; [change (2 ^ Z.of_nat 0) with 1 in Hr; lia|].
  set (K := Z.of_nat (S k)) in *. assert (HK : 1 <= K) by lia.
  pose proof (pow2_pred K HK) as EK.
  destruct (Z.lt_ge_cases r (2 ^ (K - 1))) as [Hlt|Hge].
  - rewrite tS_low by lia. Z.div_mod_to_equations. lia.
  - replace r with (2 ^ K - (2 ^ K - r)) by lia.
    rewrite tS_mirror by lia. apply tS_back_ceil; lia.
Qed.

Lemma tS_last (k : nat) :
  (1 <= k)%nat ->
  tS (Z.of_nat k) (2 ^ Z.of_nat k - 1) = Z.of_nat k / 2 + 1.
Proof.
  intros Hk. rewrite tS_mirror by (pose proof (pow2_pos (Z.of_nat k - 1)); lia).
  change 1 with (2 ^ 0) at 1. rewrite tS_back_pow by lia.
  change (2 ^ 0) with 1. Z.div_mod_to_equations. lia.
Qed.

(** * The build phase *)

Lemma cum_zsum (k r : nat) :
  (r <= 2 ^ k - 1)%nat -> Z.of_nat (cum k r) = zsum (tS (Z.of_nat k)) r.
Proof.
  induction r as [|r IH]; intros Hr; [reflexivity|].
  cbn [cum zsum]. rewrite Nat2Z.inj_add, IH by lia.
  pose proof (pow2_nat k) as Ep.
  rewrite Z2Nat.id; [reflexivity|].
  apply tS_range. lia.
Qed.

Lemma cum_total (k : nat) : cum k (2 ^ k - 1) = (2 ^ k - 1)%nat.
Proof.
  pose proof (cum_zsum k (2 ^ k - 1) ltac:(lia)) as E.
  rewrite tS_sum in E. pose proof (pow2_nat k). pose proof (pow2_nat_pos k). lia.
Qed.

Lemma cum_mono (k r r' : nat) : (r <= r')%nat -> (cum k r <= cum k r')%nat.
Proof. induction 1; cbn [cum]; lia. Qed.

Lemma cum_bound (k r : nat) : (r <= 2 ^ k - 1)%nat -> (cum k r <= 2 ^ k - 1)%nat.
Proof.
  intros H. pose proof (cum_mono k _ _ H) as M. now rewrite cum_total in M.
Qed.

Section Build.
Context {Block : Type} {OW : OneWay Block}.

Lemma chain_S (x : Block) (i : nat) : chain x (S i) = f (chain x i).
Proof. reflexivity. Qed.

Lemma chain_add (x : Block) (i j : nat) :
  chain (chain x i) j = chain x (j + i).
Proof.
  induction j as [|j IH]; [reflexivity|].
  cbn [Nat.add]. rewrite !chain_S. now rewrite IH.
Qed.

Lemma build_inv_init (k : nat) (x : Block) :
  build_inv k x 0 (init_cursor k (Some x)).
Proof.
  pose proof (pow2_nat_pos k).
  repeat split; cbn; try lia.
  unfold build_slots. now rewrite Nat.sub_diag.
Qed.

(** An advance keeps the slot array in the shape of [build_slots]. *)
Lemma advance_inv (k : nat) (x : Block) (N : nat) (c : cursor) :
  build_inv k x N c -> (N < 2 ^ k - 1)%nat ->
  exists c', advance c = inr c' /\ build_inv k x (S N) c'.
Proof.
  destruct c as [[y i] g]. unfold build_inv. cbn [fst snd].
  intros (Hi & Hg & HN & Hy) HNk.
  assert (Hz : y !! i = Some (Some (chain x N))).
  { subst y. unfold build_slots. apply list_lookup_middle.
    now rewrite length_replicate. }
  unfold advance. rewrite Hz.
  destruct g as [|g'], i as [|i'].
  - cbn in HN. lia.
  - eexists. split; [reflexivity|].
    pose proof (pow2_nat_pos i') as Hp.
    assert (E2 : (2 ^ S i' = 2 * 2 ^ i')%nat) by apply Nat.pow_succ_r'.
    cbn [fst snd]. repeat split; try lia.
    subst y. unfold build_slots.
    rewrite replicate_S_end, <- app_assoc.
    rewrite insert_app_r_alt by (rewrite length_replicate; lia).
    rewrite length_replicate, Nat.sub_diag. cbn [app].
    replace (k - i')%nat with (S (k - S i')) by lia.
    cbn [seq map]. rewrite <- chain_S.
    replace (2 ^ k - 2 ^ S i')%nat with N by lia. reflexivity.
  - eexists. split; [reflexivity|].
    cbn [fst snd]. repeat split; try lia.
    subst y. reflexivity.
  - eexists. split; [reflexivity|].
    cbn [fst snd]. repeat split; try lia.
    subst y. unfold build_slots.
    rewrite insert_app_r_alt by (rewrite length_replicate; lia).
    rewrite length_replicate, Nat.sub_diag. reflexivity.
Qed.

Lemma advances_inv (k : nat) (x : Block) (n N : nat) (c : cursor) :
  build_inv k x N c -> (N + n <= 2 ^ k - 1)%nat ->
  exists ws c', advances n c = (ws, inr c') /\
                build_inv k x (N + n) c' /\ length ws = n.
Proof.
  revert N c. induction n as [|n IH]; intros N c Hinv Hn.
  - exists [], c. rewrite Nat.add_0_r. split; [reflexivity|]. now split.
  - destruct (advance_inv k x N c Hinv ltac:(lia)) as (c1 & E1 & Hinv1).
    destruct (IH (S N) c1 Hinv1 ltac:(lia)) as (ws & c' & E & Hinv' & Hl).
    exists (c1.1.2 :: ws), c'. cbn [advances]. rewrite E1, E.
    split; [reflexivity|]. split; [|cbn; lia].
    now replace (N + S n)%nat with (S N + n)%nat by lia.
Qed.

Lemma advances_writes (n : nat) (c c' : cursor) (ws : list nat) :
  advances n c = (ws, inr c') -> ws = writes n c.1.2 c.2.
Proof.
  revert c ws. induction n as [|n IH]; intros [[y i] g] ws E; cbn in E.
  - now inversion E.
  - destruct (y !! i) as [[z|]|]; try discriminate.
    destruct g as [|g'], i as [|i']; try discriminate;
      match type of E with
      | context [advances n ?c1] =>
          destruct (advances n c1) as [ws1 res1] eqn:E1
      end;
      inversion E; subst; cbn [writes fst snd]; f_equal;
      now apply (IH _ _ E1).
Qed.

(** The cursor position is a function of the number of advances made. *)
Lemma build_inv_cursor (k : nat) (x x' : Block) (N : nat) (c c' : cursor) :
  build_inv k x N c -> build_inv k x' N c' ->
  c.1.2 = c'.1.2 /\ c.2 = c'.2.
Proof.
  destruct c as [[y i] g], c' as [[y' i'] g'].
  intros (_ & Hg & HN & _) (_ & Hg' & HN' & _). cbn in *.
  assert (i = i'); [|subst; lia].
  destruct (Nat.lt_trichotomy i i') as [H|[H|H]]; [exfalso|assumption|exfalso].
  - assert (2 ^ S i <= 2 ^ i')%nat by (apply Nat.pow_le_mono_r; lia).
    rewrite Nat.pow_succ_r' in *. lia.
  - assert (2 ^ S i' <= 2 ^ i)%nat by (apply Nat.pow_le_mono_r; lia).
    rewrite Nat.pow_succ_r' in *. lia.
Qed.

Lemma build_inv_final (k : nat) (x : Block) (c : cursor) :
  build_inv k x (2 ^ k - 1) c -> c = (final_slots k x, 0%nat, 0%nat).
Proof.
  destruct c as [[y i] g]. intros (Hi & Hg & HN & Hy). cbn in *.
  pose proof (pow2_nat_pos k). pose proof (pow2_nat_pos i).
  assert (i = 0%nat).
  { destruct i as [|i]; [reflexivity|].
    pose proof (pow2_nat_pos i). rewrite Nat.pow_succ_r' in *. lia. }
  subst i. cbn in *. assert (g = 0%nat) by lia. subst g y.
  unfold build_slots, final_slots. cbn [replicate app seq map].
  rewrite Nat.sub_0_r. reflexivity.
Qed.
End Build.

(** * Rounds of the generator *)

Section Rounds.
Context {Block : Type} {OW : OneWay Block}.

Lemma steps_S (n : nat) (s : gen) : steps (S n) s = (step (steps n s)).2.
Proof. reflexivity. Qed.

Lemma step_obs (n : nat) (s : gen) : step (steps n s) = (obs n s, steps (S n) s).
Proof. unfold obs. cbn [steps]. now destruct (step (steps n s)). Qed.

Lemma steps_Finished (n : nat) : steps n (@Finished Block) = Finished.
Proof. induction n as [|n IH]; [reflexivity|]. cbn [steps]. now rewrite IH. Qed.

Lemma steps_add (n m : nat) (s : gen) : steps (n + m) s = steps n (steps m s).
Proof. induction n as [|n IH]; [reflexivity|]. cbn [Nat.add steps]. now rewrite IH. Qed.

(** ** Build rounds *)

(** After [r] build rounds the next call enters round [r + 1] with a cursor
    that has made [cum k r] advances. *)
Lemma build_step (k : nat) (x : Block) (r : nat) :
  (r <= 2 ^ k - 1)%nat ->
  exists c, build_inv k x (cum k r) c /\
            step (steps r (P (Z.of_nat k) (Some x))) = next_round k c (S r).
Proof.
  induction r as [|r IH]; intros Hr.
  - exists (init_cursor k (Some x)). split; [apply build_inv_init|].
    cbn [steps P step]. unfold start.
    destruct (Z.ltb_spec (Z.of_nat k) 0); [lia|]. now rewrite Nat2Z.id.
  - destruct IH as (c & Hinv & E); [lia|].
    pose proof (cum_bound k (S r) Hr) as Hb. cbn [cum] in Hb.
    destruct (advances_inv k x _ _ c Hinv Hb) as (ws & c' & Ea & Hinv' & _).
    exists c'. split; [exact Hinv'|].
    cbn [steps]. rewrite E. unfold next_round at 1.
    destruct (Nat.ltb_spec (S r) (2 ^ k)) as [_|]; [|lia].
    unfold round. rewrite Ea. reflexivity.
Qed.

Lemma build_round (k : nat) (x : Block) (n : nat) :
  (n < 2 ^ k - 1)%nat ->
  exists c,
    build_inv k x (cum k n) c /\
    obs n (P (Z.of_nat k) (Some x))
    = (map (pair k) (writes (Z.to_nat (tS (Z.of_nat k) (Z.of_nat (S n)))) c.1.2 c.2),
       Yield None).
Proof.
  intros Hn. destruct (build_step k x n ltac:(lia)) as (c & Hinv & E).
  exists c. split; [exact Hinv|]. unfold obs. rewrite E.
  pose proof (cum_bound k (S n) ltac:(lia)) as Hb. cbn [cum] in Hb.
  destruct (advances_inv k x _ _ c Hinv Hb) as (ws & c' & Ea & _ & _).
  unfold next_round. destruct (Nat.ltb_spec (S n) (2 ^ k)) as [_|]; [|lia].
  unfold round. rewrite Ea. cbn [fst]. now rewrite (advances_writes _ _ _ _ Ea).
Qed.

Lemma final_slots_lookup (k : nat) (x : Block) (i : nat) :
  (i <= k)%nat -> final_slots k x !! i = Some (Some (chain x (2 ^ k - 2 ^ i))).
Proof.
  intros Hi. unfold final_slots.
  rewrite list_lookup_fmap, lookup_seq_lt by lia. reflexivity.
Qed.

Lemma emit_round (k : nat) (x : Block) :
  step (steps (2 ^ k - 1) (P (Z.of_nat k) (Some x)))
  = (([], Yield (Some (chain x (2 ^ k - 1)))), Emitted k (final_slots k x)).
Proof.
  destruct (build_step k x (2 ^ k - 1) ltac:(lia)) as (c & Hinv & E).
  rewrite cum_total in Hinv. apply build_inv_final in Hinv. subst c.
  rewrite E. unfold next_round.
  pose proof (pow2_nat_pos k).
  destruct (Nat.ltb_spec (S (2 ^ k - 1)) (2 ^ k)); [lia|].
  cbn [fst]. now rewrite final_slots_lookup by lia.
Qed.

(** ** Delegation rounds *)

Lemma mapM_total {A B : Type} (h : A -> option B) (g : A -> B) (l : list A) :
  (forall a, a ∈ l -> h a = Some (g a)) -> mapM h l = Some (map g l).
Proof.
  intros H. apply mapM_Some_2.
  induction l as [|a l IH]; cbn; constructor.
  - apply H. left.
  - apply IH. intros b Hb. apply H. now right.
Qed.

Lemma spawn_final (k : nat) (x : Block) :
  spawn k (final_slots k x)
  = Some (map (fun j : nat => (Z.of_nat j, Some (chain x (2 ^ k - 2 ^ S j)))) (seq 0 k)).
Proof.
  unfold spawn.
  rewrite (mapM_total _ (fun i : nat =>
             (Z.of_nat i - 1, Some (chain x (2 ^ k - 2 ^ i))))).
  - f_equal. rewrite <- seq_shift, map_map.
    apply map_ext. intros j. f_equal. lia.
  - intros i Hi. apply elem_of_seq in Hi.
    now rewrite final_slots_lookup by lia.
Qed.

Lemma step_Emitted_final (k : nat) (x : Block) :
  step (Emitted k (final_slots k x))
  = zip_next k (final_slots k x) (map step (subs0 k x)).
Proof.
  cbn [step]. rewrite spawn_final. unfold subs0.
  now rewrite !map_map.
Qed.

Lemma first_raise_None (rs : list (@result Block)) :
  Forall (fun r : result => forall e, r.1.2 <> Raise e) rs -> first_raise rs = None.
Proof.
  induction 1 as [|[[evs o] s] rs Ho _ IH]; [reflexivity|].
  cbn [first_raise]. rewrite IH.
  destruct o; try reflexivity. now destruct (Ho e).
Qed.

(** A round in which the sub-generators offer nothing but the true Block
    [b], and at least one offers it, yields [b]. *)
Lemma zip_next_value (k : nat) (y : list slot) (rs : list result) (b : Block) :
  truthy b = true ->
  Forall (fun r : result =>
            r.1.2 = Yield None \/ r.1.2 = Yield (Some b) \/ r.1.2 = Stop) rs ->
  Exists (fun r : result => r.1.2 = Yield (Some b)) rs ->
  zip_next k y rs
  = ((concat (map (fun r : result => r.1.1) rs), Yield (Some b)),
     Zipping k y (map snd rs)).
Proof.
  intros Hb Hall Hex. unfold zip_next.
  rewrite first_raise_None.
  2:{ eapply Forall_impl; [exact Hall|]. intros r [E|[E|E]] e; rewrite E; discriminate. }
  assert (forallb (fun r : result => is_stop r.1.2) rs = false) as ->.
  { apply not_true_is_false. intros Hf.
    rewrite forallb_forall in Hf. apply Exists_exists in Hex.
    destruct Hex as (r & Hin & E). apply list_elem_of_In in Hin.
  specialize (Hf r Hin). now rewrite E in Hf. }
  assert (head (List.filter (is_true) (map (fun r : result => fill r.1.2) rs))
          = Some (Some b)) as ->; [|reflexivity].
  induction Hall as [|r rs Hr Hall IH]; [inversion Hex|].
  cbn [map List.filter].
  destruct Hr as [E|[E|E]]; rewrite E; cbn [fill is_true].
  - apply IH. inversion Hex; subst; [congruence|assumption].
  - now rewrite Hb.
  - apply IH. inversion Hex; subst; [congruence|assumption].
Qed.

Lemma zip_next_stop (k : nat) (y : list slot) (rs : list result) :
  Forall (fun r : result => r.1.2 = Stop) rs ->
  zip_next k y rs = ((concat (map (fun r : result => r.1.1) rs), Stop), Finished).
Proof.
  intros Hall. unfold zip_next.
  rewrite first_raise_None.
  2:{ eapply Forall_impl; [exact Hall|]. intros r E e; rewrite E; discriminate. }
  assert (forallb (fun r : result => is_stop r.1.2) rs = true) as ->; [|reflexivity].
  apply forallb_forall. intros r Hin.
  rewrite Forall_forall in Hall. rewrite (Hall r); [reflexivity|].
  now apply list_elem_of_In.
Qed.
End Rounds.

(** * Output of the pebbler *)

Section Output.
Context {Block : Type} {OW : OneWay Block}.

Lemma chain_truthy_spec (k : nat) (x : Block) :
  chain_truthy k x = true <-> forall i, (i < 2 ^ k)%nat -> truthy (chain x i) = true.
Proof.
  unfold chain_truthy. rewrite forallb_forall. split.
  - intros Hc i Hi. apply Hc, in_seq. lia.
  - intros Hc i Hi. apply in_seq in Hi. apply Hc. lia.
Qed.

Lemma pow2_nat_mono (a b : nat) : (a <= b)%nat -> (2 ^ a <= 2 ^ b)%nat.
Proof. intros. apply Nat.pow_le_mono_r; lia. Qed.

Lemma chain_truthy_sub (k j : nat) (x : Block) :
  (j < k)%nat -> chain_truthy k x = true ->
  chain_truthy j (chain x (2 ^ k - 2 ^ S j)) = true.
Proof.
  intros Hj Hc. rewrite chain_truthy_spec in *. intros i Hi.
  rewrite chain_add. apply Hc.
  pose proof (pow2_nat_mono (S j) k ltac:(lia)) as Hm.
  rewrite Nat.pow_succ_r' in *. lia.
Qed.

Lemma sub_spec_eq (k j : nat) (x : Block) (t : nat) :
  (j < k)%nat -> out_spec j (chain x (2 ^ k - 2 ^ S j)) t = sub_spec k x j t.
Proof.
  intros Hj. unfold out_spec, sub_spec.
  pose proof (pow2_nat_mono (S j) k ltac:(lia)) as Hm.
  pose proof (pow2_nat_pos j) as Hp.
  replace (j + 1)%nat with (S j) by lia.
  destruct (Nat.ltb_spec t (2 ^ j - 1)); [reflexivity|].
  destruct (Nat.ltb_spec t (2 ^ S j - 1)); [|reflexivity].
  rewrite chain_add. do 3 f_equal. lia.
Qed.

(** The results of one round of polling, under the assumption that the
    sub-generators of smaller order behave as [out_spec] says. *)
Section Delegation.
Variables (k : nat) (x : Block).
Hypothesis IH : forall j, (j < k)%nat -> outputs_ok j.
Hypothesis Hx : chain_truthy k x = true.

Lemma sub_outcome (j t : nat) :
  (j < k)%nat ->
  (step (steps t (P (Z.of_nat j) (Some (chain x (2 ^ k - 2 ^ S j)))))).1.2
  = sub_spec k x j t.
Proof.
  intros Hj. rewrite <- sub_spec_eq by assumption.
  apply (IH j Hj). now apply chain_truthy_sub.
Qed.

Lemma zip_round_value (t : nat) :
  (t + 2 <= 2 ^ k)%nat ->
  zip_next k (final_slots k x) (map (fun s => step (steps t s)) (subs0 k x))
  = ((concat (map (fun s => (obs t s).1) (subs0 k x)),
      Yield (Some (chain x (2 ^ k - 2 - t)))),
     Zipping k (final_slots k x) (map (steps (S t)) (subs0 k x))).
Proof.
  intros Ht.
  rewrite (zip_next_value _ _ _ (chain x (2 ^ k - 2 - t))).
  - now rewrite !map_map.
  - apply chain_truthy_spec with (i := (2 ^ k - 2 - t)%nat) in Hx; [exact Hx|lia].
  - unfold subs0. rewrite map_map. apply Forall_map, Forall_forall.
    intros j Hj. apply list_elem_of_In, in_seq in Hj.
    rewrite sub_outcome by lia. unfold sub_spec.
    destruct (Nat.ltb_spec t (2 ^ j - 1)); [now left|].
    destruct (Nat.ltb_spec t (2 ^ S j - 1)); [right; now left|right; now right].
  - unfold subs0. rewrite map_map. apply Exists_map, Exists_exists.
    exists (Nat.log2 (S t)).
    pose proof (Nat.log2_spec (S t) ltac:(lia)) as Hl.
    assert (Nat.log2 (S t) < k)%nat by (apply Nat.log2_lt_pow2; lia).
    split; [apply list_elem_of_In, in_seq; lia|].
    rewrite sub_outcome by lia. unfold sub_spec.
    destruct (Nat.ltb_spec t (2 ^ Nat.log2 (S t) - 1)); [lia|].
    destruct (Nat.ltb_spec t (2 ^ S (Nat.log2 (S t)) - 1)); [reflexivity|lia].
Qed.

Lemma zip_round_stop (t : nat) :
  (2 ^ k <= t + 1)%nat ->
  zip_next k (final_slots k x) (map (fun s => step (steps t s)) (subs0 k x))
  = ((concat (map (fun s => (obs t s).1) (subs0 k x)), Stop), Finished).
Proof.
  intros Ht. rewrite zip_next_stop.
  - now rewrite map_map.
  - unfold subs0. rewrite map_map. apply Forall_map, Forall_forall.
    intros j Hj. apply list_elem_of_In, in_seq in Hj.
    rewrite sub_outcome by lia. unfold sub_spec.
    pose proof (pow2_nat_mono (S j) k ltac:(lia)) as Hm.
    destruct (Nat.ltb_spec t (2 ^ j - 1)); [rewrite Nat.pow_succ_r' in Hm; lia|].
    destruct (Nat.ltb_spec t (2 ^ S j - 1)); [lia|reflexivity].
Qed.

Lemma zip_state (t : nat) :
  (t + 1 <= 2 ^ k)%nat ->
  step (steps (2 ^ k + t) (P (Z.of_nat k) (Some x)))
  = zip_next k (final_slots k x) (map (fun s => step (steps t s)) (subs0 k x)).
Proof.
  pose proof (pow2_nat_pos k) as Hp.
  induction t as [|t IHt]; intros Ht.
  - rewrite Nat.add_0_r.
    replace (2 ^ k)%nat with (S (2 ^ k - 1)) at 1 by lia.
    rewrite steps_S, emit_round. cbn [snd]. apply step_Emitted_final.
  - replace (2 ^ k + S t)%nat with (S (2 ^ k + t)) by lia.
    rewrite steps_S, IHt, zip_round_value by lia.
    cbn [snd step]. now rewrite map_map.
Qed.

Lemma finished_state (n : nat) :
  (2 ^ (k + 1) <= n)%nat -> steps n (P (Z.of_nat k) (Some x)) = Finished.
Proof.
  intros Hn. pose proof (pow2_nat_pos k) as Hp.
  assert (E2 : (2 ^ (k + 1) = 2 * 2 ^ k)%nat)
    by (rewrite Nat.add_1_r; apply Nat.pow_succ_r').
  replace n with ((n - 2 ^ (k + 1)) + S (2 ^ k + (2 ^ k - 1)))%nat by lia.
  rewrite steps_add, steps_S, zip_state, zip_round_stop by lia.
  apply steps_Finished.
Qed.

Lemma outputs_at (n : nat) :
  (obs n (P (Z.of_nat k) (Some x))).2 = out_spec k x n.
Proof.
  pow2_facts k.
  unfold out_spec.
  destruct (Nat.ltb_spec n (2 ^ k - 1)) as [Hb|Hb].
  - destruct (build_round k x n Hb) as (c & _ & E). now rewrite E.
  - destruct (Nat.ltb_spec n (2 ^ (k + 1) - 1)) as [He|He].
    + destruct (Nat.eq_dec n (2 ^ k - 1)%nat) as [->|Hne].
      * unfold obs. rewrite emit_round. cbn [fst snd]. do 3 f_equal. lia.
      * replace n with (2 ^ k + (n - 2 ^ k))%nat at 1 by lia.
        unfold obs. rewrite zip_state, zip_round_value by lia.
        cbn [fst snd]. do 3 f_equal. lia.
    + destruct (Nat.eq_dec n (2 ^ (k + 1) - 1)%nat) as [->|Hne].
      * replace (2 ^ (k + 1) - 1)%nat with (2 ^ k + (2 ^ k - 1))%nat by lia.
        unfold obs. now rewrite zip_state, zip_round_stop by lia.
      * unfold obs. now rewrite finished_state by lia.
Qed.
End Delegation.

(** Every call of [next()] returns what [out_spec] says. *)
Theorem outputs_ok_all (k : nat) : outputs_ok k.
Proof.
  induction k as [k IH] using lt_wf_ind.
  intros x Hx n. now apply outputs_at.
Qed.
End Output.

(** * Sums over rounds *)

Lemma nsum_ext (g h : nat -> nat) (n : nat) :
  (forall i, (i < n)%nat -> g i = h i) -> nsum g n = nsum h n.
Proof.
  induction n as [|n IH]; intros E; [reflexivity|].
  cbn [nsum]. rewrite IH, E by (try intros; try apply E; lia). reflexivity.
Qed.

Lemma nsum_app (g : nat -> nat) (n m : nat) :
  nsum g (n + m) = (nsum g n + nsum (fun i => g (n + i)%nat) m)%nat.
Proof.
  induction m as [|m IH]; [cbn [nsum]; now rewrite !Nat.add_0_r|].
  rewrite Nat.add_succ_r. cbn [nsum]. rewrite IH. lia.
Qed.

Lemma nsum_zero (g : nat -> nat) (n : nat) :
  (forall i, (i < n)%nat -> g i = 0%nat) -> nsum g n = 0%nat.
Proof.
  induction n as [|n IH]; intros E; [reflexivity|].
  cbn [nsum]. rewrite IH, E by (try intros; try apply E; lia). reflexivity.
Qed.

Lemma nsum_plus (g h : nat -> nat) (n : nat) :
  nsum (fun i => (g i + h i)%nat) n = (nsum g n + nsum h n)%nat.
Proof. induction n as [|n IH]; cbn [nsum]; lia. Qed.

Lemma nsum_swap (a : nat -> nat -> nat) (n m : nat) :
  nsum (fun t => nsum (fun j => a j t) m) n
  = nsum (fun j => nsum (fun t => a j t) n) m.
Proof.
  induction n as [|n IH]; cbn [nsum].
  - symmetry. now apply nsum_zero.
  - rewrite IH, <- nsum_plus. reflexivity.
Qed.

Lemma length_concat_seq {A : Type} (g : nat -> list A) (k : nat) :
  length (concat (map g (seq 0 k))) = nsum (fun j => length (g j)) k.
Proof.
  induction k as [|k IH]; [reflexivity|].
  rewrite seq_S, map_app, concat_app, length_app, IH.
  cbn [nsum map concat Nat.add]. rewrite app_nil_r. reflexivity.
Qed.

Lemma nsum_pebble_total (k : nat) :
  (nsum (fun j => j * 2 ^ (j - 1)) k + 2 ^ k = k * 2 ^ (k - 1) + 1)%nat.
Proof.
  induction k as [|k IH]; [reflexivity|].
  cbn [nsum]. rewrite Nat.pow_succ_r'.
  replace (S k - 1)%nat with k by lia.
  destruct k as [|k]; [reflexivity|].
  replace (S k - 1)%nat with k in * by lia.
  rewrite Nat.pow_succ_r' in *. lia.
Qed.

Lemma rev_seq (m : nat) : rev (seq 0 m) = map (fun n => (m - 1 - n)%nat) (seq 0 m).
Proof.
  induction m as [|m IH]; [reflexivity|].
  rewrite seq_S at 1. rewrite rev_app_distr. cbn [rev app Nat.add].
  rewrite IH. cbn [seq map]. f_equal; [lia|].
  rewrite <- seq_shift, map_map. apply map_ext. intros n. lia.
Qed.

Lemma map_const_seq {A : Type} (a : A) (g : nat -> A) (s n : nat) :
  (forall i, (s <= i < s + n)%nat -> g i = a) -> map g (seq s n) = replicate n a.
Proof.
  revert s. induction n as [|n IH]; intros s E; [reflexivity|].
  cbn [seq map replicate]. rewrite E, IH by (try intros; try apply E; lia).
  reflexivity.
Qed.

Lemma seq_offset (a n : nat) : seq a n = map (fun i => (a + i)%nat) (seq 0 n).
Proof.
  induction n as [|n IH]; [reflexivity|].
  rewrite !seq_S, map_app, <- IH. reflexivity.
Qed.

(** * The whole traversal *)

Section Traversal.
Context {Block : Type} {OW : OneWay Block}.

Lemma build_state (k : nat) (x : Block) (r : nat) :
  (1 <= r <= 2 ^ k - 1)%nat ->
  exists c, build_inv k x (cum k r) c /\
            steps r (P (Z.of_nat k) (Some x)) = Building k c r.
Proof.
  intros Hr. destruct r as [|r]; [lia|].
  destruct (build_step k x r ltac:(lia)) as (c & Hinv & E).
  pose proof (cum_bound k (S r) ltac:(lia)) as Hb. cbn [cum] in Hb.
  destruct (advances_inv k x _ _ c Hinv Hb) as (ws & c' & Ea & Hinv' & _).
  exists c'. split; [exact Hinv'|].
  rewrite steps_S, E. unfold next_round.
  destruct (Nat.ltb_spec (S r) (2 ^ k)) as [_|]; [|lia].
  unfold round. now rewrite Ea.
Qed.

Lemma build_cost (k : nat) (x : Block) (n : nat) :
  (n < 2 ^ k - 1)%nat ->
  cost n (P (Z.of_nat k) (Some x)) = Z.to_nat (tS (Z.of_nat k) (Z.of_nat (S n))).
Proof.
  intros Hn. destruct (build_step k x n ltac:(lia)) as (c & Hinv & E).
  pose proof (cum_bound k (S n) ltac:(lia)) as Hb. cbn [cum] in Hb.
  destruct (advances_inv k x _ _ c Hinv Hb) as (ws & c' & Ea & _ & Hl).
  unfold cost, obs. rewrite E. unfold next_round.
  destruct (Nat.ltb_spec (S n) (2 ^ k)) as [_|]; [|lia].
  unfold round. rewrite Ea. cbn [fst]. now rewrite length_map.
Qed.

Lemma emit_obs (k : nat) (x : Block) :
  obs (2 ^ k - 1) (P (Z.of_nat k) (Some x))
  = ([], Yield (Some (chain x (2 ^ k - 1)))).
Proof. unfold obs. now rewrite emit_round. Qed.

Lemma zip_obs (k : nat) (x : Block) (t : nat) :
  chain_truthy k x = true -> (t + 2 <= 2 ^ k)%nat ->
  obs (2 ^ k + t) (P (Z.of_nat k) (Some x))
  = (concat (map (fun s => (obs t s).1) (subs0 k x)),
     Yield (Some (chain x (2 ^ k - 2 - t)))).
Proof.
  intros Hx Ht. unfold obs at 1.
  rewrite (zip_state k x (fun j _ => outputs_ok_all j) Hx) by lia.
  now rewrite (zip_round_value k x (fun j _ => outputs_ok_all j) Hx).
Qed.

Lemma stop_obs (k : nat) (x : Block) :
  chain_truthy k x = true ->
  obs (2 ^ (k + 1) - 1) (P (Z.of_nat k) (Some x))
  = (concat (map (fun s => (obs (2 ^ k - 1) s).1) (subs0 k x)), Stop).
Proof.
  intros Hx. pose proof (pow2_nat_pos k).
  replace (2 ^ (k + 1) - 1)%nat with (2 ^ k + (2 ^ k - 1))%nat
    by (rewrite Nat.add_1_r, Nat.pow_succ_r'; lia).
  unfold obs at 1.
  rewrite (zip_state k x (fun j _ => outputs_ok_all j) Hx) by lia.
  now rewrite (zip_round_stop k x (fun j _ => outputs_ok_all j) Hx) by lia.
Qed.

Lemma finished_obs (k : nat) (x : Block) (n : nat) :
  chain_truthy k x = true -> (2 ^ (k + 1) <= n)%nat ->
  obs n (P (Z.of_nat k) (Some x)) = ([], Stop).
Proof.
  intros Hx Hn. unfold obs.
  now rewrite (finished_state k x (fun j _ => outputs_ok_all j) Hx).
Qed.

Lemma zip_events (k : nat) (x : Block) (t : nat) :
  chain_truthy k x = true -> (t + 1 <= 2 ^ k)%nat ->
  (obs (2 ^ k + t) (P (Z.of_nat k) (Some x))).1
  = concat (map (fun s => (obs t s).1) (subs0 k x)).
Proof.
  intros Hx Ht. destruct (Nat.eq_dec t (2 ^ k - 1)%nat) as [->|Hne].
  - pose proof (stop_obs k x Hx) as E. pose proof (pow2_nat_pos k).
    replace (2 ^ (k + 1) - 1)%nat with (2 ^ k + (2 ^ k - 1))%nat in E
      by (rewrite Nat.add_1_r, Nat.pow_succ_r'; lia).
    now rewrite E.
  - now rewrite zip_obs by (assumption || lia).
Qed.

Lemma subgens_state (k : nat) (x : Block) (t : nat) :
  chain_truthy k x = true -> (1 <= t <= 2 ^ k)%nat ->
  subgens (steps (2 ^ k - 1 + t) (P (Z.of_nat k) (Some x)))
  = map (steps (t - 1)) (subs0 k x).
Proof.
  intros Hx Ht. destruct t as [|[|t]]; [lia| |].
  - replace (2 ^ k - 1 + 1)%nat with (S (2 ^ k - 1)) by lia.
    rewrite steps_S, emit_round. cbn [snd subgens].
    rewrite spawn_final. unfold subs0. rewrite !map_map. reflexivity.
  - replace (2 ^ k - 1 + S (S t))%nat with (S (2 ^ k + t)) by lia.
    rewrite steps_S.
    rewrite (zip_state k x (fun j _ => outputs_ok_all j) Hx) by lia.
    rewrite (zip_round_value k x (fun j _ => outputs_ok_all j) Hx) by lia.
    cbn [snd subgens]. now replace (S (S t) - 1)%nat with (S t) by lia.
Qed.

Lemma concat_nil_map {A B : Type} (g : A -> list B) (l : list A) :
  (forall a, In a l -> g a = []) -> concat (map g l) = [].
Proof.
  induction l as [|a l IH]; intros E; [reflexivity|].
  cbn [map concat]. rewrite E, IH by (try intros; try apply E; cbn; auto).
  reflexivity.
Qed.

(** After its last value a generator evaluates nothing. *)
Lemma quiet (k : nat) (x : Block) (n : nat) :
  chain_truthy k x = true -> (2 ^ (k + 1) - 1 <= n)%nat ->
  (obs n (P (Z.of_nat k) (Some x))).1 = [].
Proof.
  revert x n. induction k as [k IH] using lt_wf_ind. intros x n Hx Hn.
  destruct (Nat.eq_dec n (2 ^ (k + 1) - 1)%nat) as [->|Hne].
  - rewrite stop_obs by assumption. cbn [fst].
    apply concat_nil_map. intros s Hs. unfold subs0 in Hs.
    apply in_map_iff in Hs. destruct Hs as (j & <- & Hj). apply in_seq in Hj.
    apply IH; [lia|apply chain_truthy_sub; [lia|assumption]|].
    pose proof (pow2_nat_mono (j + 1) k ltac:(lia)). lia.
  - now rewrite finished_obs by (assumption || lia).
Qed.

Lemma run_outputs (k : nat) (x : Block) (N : nat) :
  chain_truthy k x = true ->
  map snd (run N (P (Z.of_nat k) (Some x))) = map (out_spec k x) (seq 0 N).
Proof.
  intros Hx. unfold run. rewrite map_map. apply map_ext.
  intros n. now apply outputs_ok_all.
Qed.

Lemma out_spec_list (k : nat) (x : Block) :
  map (out_spec k x) (seq 0 (2 ^ (k + 1)))
  = replicate (2 ^ k - 1) (Yield None)
    ++ map (fun i => Yield (Some (chain x i))) (rev (seq 0 (2 ^ k)))
    ++ [Stop].
Proof.
  pow2_facts k.
  replace (2 ^ (k + 1))%nat with ((2 ^ k - 1) + (2 ^ k + 1))%nat at 1 by lia.
  rewrite !seq_app, !map_app. cbn [Nat.add]. f_equal; [|f_equal].
  - apply map_const_seq. intros i Hi. unfold out_spec.
    destruct (Nat.ltb_spec i (2 ^ k - 1)); [reflexivity|lia].
  - rewrite rev_seq, (seq_offset (2 ^ k - 1)), !map_map. apply map_ext_in.
    intros i Hi. apply in_seq in Hi. unfold out_spec.
    destruct (Nat.ltb_spec (2 ^ k - 1 + i) (2 ^ k - 1)); [lia|].
    destruct (Nat.ltb_spec (2 ^ k - 1 + i) (2 ^ (k + 1) - 1)); [|lia].
    do 3 f_equal. lia.
  - cbn [seq map]. unfold out_spec.
    destruct (Nat.ltb_spec (2 ^ k - 1 + 2 ^ k) (2 ^ k - 1)); [lia|].
    destruct (Nat.ltb_spec (2 ^ k - 1 + 2 ^ k) (2 ^ (k + 1) - 1)); [lia|].
    reflexivity.
Qed.
End Traversal.

(** * The properties of the specification *)

Section Properties.
Context {Block : Type} {OW : OneWay Block}.

(** C1. For every order [k] and every seed [x] whose chain values are true
    in Python's sense, [P(k, x)] yields exactly [2^(k+1) - 1] results and
    is then exhausted: first [2^k - 1] times [None], then the chain values
    [x_{n-1}, ..., x_0] in descending order, [n = 2^k]; for order [0] the
    single round evaluates nothing and yields the seed. *)
Theorem pebbler_output (k : nat) (x : Block) :
  chain_truthy k x = true ->
  map snd (run (2 ^ (k + 1)) (P (Z.of_nat k) (Some x)))
  = replicate (2 ^ k - 1) (Yield None)
    ++ map (fun i => Yield (Some (chain x i))) (rev (seq 0 (2 ^ k)))
    ++ [Stop]
  /\ run 2 (P 0 (Some x)) = [([], Yield (Some x)); ([], Stop)].
Proof.
  intros Hx. split; [|reflexivity].
  rewrite run_outputs by assumption. apply out_spec_list.
Qed.

(** C3, as amended. In a build round [r] of [1 .. n-1] the pebbler
    evaluates [f] exactly [tS(k, r)] times; in round [n] it evaluates
    nothing; in an emission round [n + t] it performs the evaluations that
    its sub-generators of orders [0 .. k-1] perform in their round [t]. *)
Theorem evals_per_round (k : nat) (x : Block) :
  chain_truthy k x = true ->
  (forall r, (1 <= r <= 2 ^ k - 1)%nat ->
     Z.of_nat (cost (r - 1) (P (Z.of_nat k) (Some x)))
     = tS (Z.of_nat k) (Z.of_nat r))
  /\ cost (2 ^ k - 1) (P (Z.of_nat k) (Some x)) = 0%nat
  /\ (forall t, (1 <= t <= 2 ^ k - 1)%nat ->
        cost (2 ^ k - 1 + t) (P (Z.of_nat k) (Some x))
        = nsum (fun j => cost (t - 1) (sub k x j)) k).
Proof.
  intros Hx. split; [|split].
  - intros r Hr. rewrite build_cost by lia.
    replace (S (r - 1)) with r by lia.
    apply Z2Nat.id, tS_range. pose proof (pow2_nat k). lia.
  - unfold cost. now rewrite emit_obs.
  - intros t Ht. unfold cost at 1.
    replace (2 ^ k - 1 + t)%nat with (2 ^ k + (t - 1))%nat by lia.
    rewrite zip_events by (assumption || lia).
    unfold subs0. rewrite map_map. apply length_concat_seq.
Qed.

(** C7. The rounds in which [f] is evaluated, the slots written and the
    rounds in which a value rather than [None] comes out are the same for
    any two seeds. *)
Theorem schedule_data_independent (k : nat) (x x' : Block) :
  chain_truthy k x = true -> chain_truthy k x' = true ->
  forall n, shape (obs n (P (Z.of_nat k) (Some x)))
            = shape (obs n (P (Z.of_nat k) (Some x'))).
Proof.
  revert x x'. induction k as [k IH] using lt_wf_ind. intros x x' Hx Hx' n.
  pow2_facts k.
  assert (Esub : forall t,
            map (fun s => (obs t s).1) (subs0 k x)
            = map (fun s => (obs t s).1) (subs0 k x')).
  { intros t. unfold subs0. rewrite !map_map. apply map_ext_in.
    intros j Hj. apply in_seq in Hj.
    assert (Hs : shape (obs t (sub k x j)) = shape (obs t (sub k x' j)))
      by (apply IH; [lia|apply chain_truthy_sub; (assumption || lia)..]).
    unfold shape in Hs. now inversion Hs. }
  destruct (Nat.lt_ge_cases n (2 ^ k - 1)) as [Hb|Hb].
  - destruct (build_round k x n Hb) as (c & Hc & E).
    destruct (build_round k x' n Hb) as (c' & Hc' & E').
    destruct (build_inv_cursor k x x' _ c c' Hc Hc') as [Ei Eg].
    now rewrite E, E', Ei, Eg.
  - destruct (Nat.eq_dec n (2 ^ k - 1)%nat) as [->|Hne].
    { now rewrite !emit_obs. }
    replace n with (2 ^ k + (n - 2 ^ k))%nat by lia.
    destruct (Nat.lt_ge_cases (n - 2 ^ k) (2 ^ k - 1)) as [Hz|Hz].
    + rewrite !zip_obs by (assumption || lia). unfold shape. cbn [fst snd].
      now rewrite Esub.
    + destruct (Nat.eq_dec (n - 2 ^ k)%nat (2 ^ k - 1)%nat) as [->|Hne'].
      * replace (2 ^ k + (2 ^ k - 1))%nat with (2 ^ (k + 1) - 1)%nat by lia.
        rewrite !stop_obs by assumption. unfold shape. cbn [fst snd].
        now rewrite Esub.
      * now rewrite !finished_obs by (assumption || lia).
Qed.

Lemma build_total (k : nat) (x : Block) (r : nat) :
  (r <= 2 ^ k - 1)%nat ->
  nsum (fun n => cost n (P (Z.of_nat k) (Some x))) r = cum k r.
Proof.
  induction r as [|r IH]; intros Hr; [reflexivity|].
  cbn [nsum cum]. rewrite IH, build_cost by lia. reflexivity.
Qed.

Lemma emission_total (k : nat) (x : Block) :
  chain_truthy k x = true ->
  (forall j y, (j < k)%nat -> chain_truthy j y = true ->
     nsum (fun n => cost n (P (Z.of_nat j) (Some y))) (2 ^ (j + 1) - 1)
     = (j * 2 ^ (j - 1))%nat) ->
  nsum (fun t => cost (2 ^ k + t) (P (Z.of_nat k) (Some x))) (2 ^ k - 1)
  = nsum (fun j => j * 2 ^ (j - 1))%nat k.
Proof.
  intros Hx IH.
  rewrite (nsum_ext _ (fun t => nsum (fun j => cost t (sub k x j)) k)).
  2:{ intros t Ht. unfold cost at 1. rewrite zip_events by (assumption || lia).
      unfold subs0. rewrite map_map. apply length_concat_seq. }
  rewrite nsum_swap. apply nsum_ext. intros j Hj.
  pose proof (pow2_nat_mono (j + 1) k ltac:(lia)) as Hm.
  pose proof (pow2_nat_pos (j + 1)) as Hp.
  replace (2 ^ k - 1)%nat with ((2 ^ (j + 1) - 1) + (2 ^ k - 2 ^ (j + 1)))%nat by lia.
  rewrite nsum_app. unfold sub.
  rewrite IH by (try apply chain_truthy_sub; assumption || lia).
  rewrite nsum_zero; [lia|]. intros i Hi. unfold cost.
  rewrite quiet; [reflexivity|apply chain_truthy_sub; assumption || lia|lia].
Qed.

(** C4, as amended. The whole traversal of an order-[k] pebbler evaluates
    [f] exactly [k * 2^(k-1)] times, of which [n - 1 = 2^k - 1] in its own
    build phase; the rest is the work of the sub-generators. *)
Theorem total_evaluations (k : nat) (x : Block) :
  chain_truthy k x = true ->
  nsum (fun n => cost n (P (Z.of_nat k) (Some x))) (2 ^ (k + 1) - 1)
  = (k * 2 ^ (k - 1))%nat
  /\ nsum (fun n => cost n (P (Z.of_nat k) (Some x))) (2 ^ k - 1)
     = (2 ^ k - 1)%nat.
Proof.
  intros Hx. split; [|now rewrite build_total, cum_total].
  revert x Hx. induction k as [k IH] using lt_wf_ind. intros x Hx.
  pow2_facts k.
  replace (2 ^ (k + 1) - 1)%nat with ((2 ^ k - 1) + S (2 ^ k - 1))%nat by lia.
  rewrite nsum_app, build_total, cum_total by lia.
  change (S (2 ^ k - 1)) with (1 + (2 ^ k - 1))%nat.
  rewrite nsum_app. cbn [nsum]. rewrite Nat.add_0_r.
  unfold cost at 1. rewrite emit_obs. cbn [fst length].
  rewrite (nsum_ext _ (fun t => cost (2 ^ k + t) (P (Z.of_nat k) (Some x))))
    by (intros; f_equal; lia).
  rewrite emission_total by (assumption || (intros; now apply IH)).
  pose proof (nsum_pebble_total k). lia.
Qed.

Lemma sub_obs (k : nat) (x : Block) (j t : nat) :
  chain_truthy k x = true -> (j < k)%nat ->
  (obs t (sub k x j)).2 = sub_spec k x j t.
Proof.
  intros Hx Hj. unfold sub. rewrite <- sub_spec_eq by assumption.
  apply outputs_ok_all. now apply chain_truthy_sub.
Qed.

Lemma polled_lookup (k : nat) (x : Block) (t j : nat) :
  chain_truthy k x = true -> (1 <= t <= 2 ^ k)%nat -> (j < k)%nat ->
  polled k x t !! j = Some (fill (sub_spec k x j (t - 1))).
Proof.
  intros Hx Ht Hj. unfold polled, tuple.
  rewrite subgens_state by assumption. unfold subs0.
  rewrite !map_map, list_lookup_fmap, lookup_seq_lt by lia.
  cbn. f_equal. f_equal. now apply (sub_obs k x j (t - 1)).
Qed.

Lemma first_value_least (v : list slot) (j : nat) (b : Block) :
  v !! j = Some (Some b) ->
  (forall j', (j' < j)%nat -> v !! j' = Some None) ->
  first_value v = Some b.
Proof.
  revert j. induction v as [|a v IH]; intros j Hj Hlt; [discriminate|].
  destruct j as [|j].
  - cbn in Hj. inversion Hj. reflexivity.
  - pose proof (Hlt 0%nat ltac:(lia)) as H0. cbn in H0. inversion H0. subst a.
    cbn [first_value]. apply (IH j); [exact Hj|].
    intros j' Hj'. apply (Hlt (S j')). lia.
Qed.

(** C6. In every emission round after the first, the value that an
    order-[k] pebbler yields is the first entry that is not [None] of the
    tuple polled from its sub-generators in the order [i = 1 .. k] of
    their creation (orders [0 .. k-1]): the sub-generator of smallest
    order that offers a value is the one selected. *)
Theorem selects_lowest_order (k : nat) (x : Block) (t : nat) :
  chain_truthy k x = true -> (1 <= k)%nat -> (1 <= t <= 2 ^ k - 1)%nat ->
  exists j b,
    polled k x t !! j = Some (Some b)
    /\ (forall j', (j' < j)%nat -> polled k x t !! j' = Some None)
    /\ first_value (polled k x t) = Some b
    /\ (obs (2 ^ k - 1 + t) (P (Z.of_nat k) (Some x))).2 = Yield (Some b).
Proof.
  intros Hx Hk Ht.
  pose proof (Nat.log2_spec t ltac:(lia)) as Hl.
  assert (Hj : (Nat.log2 t < k)%nat) by (apply Nat.log2_lt_pow2; lia).
  exists (Nat.log2 t), (chain x (2 ^ k - 1 - t)).
  assert (E1 : polled k x t !! Nat.log2 t = Some (Some (chain x (2 ^ k - 1 - t)))).
  { rewrite polled_lookup by (assumption || lia). unfold sub_spec.
    destruct (Nat.ltb_spec (t - 1) (2 ^ Nat.log2 t - 1)); [lia|].
    destruct (Nat.ltb_spec (t - 1) (2 ^ S (Nat.log2 t) - 1)); [|lia].
    cbn [fill]. do 3 f_equal. lia. }
  assert (E2 : forall j', (j' < Nat.log2 t)%nat -> polled k x t !! j' = Some None).
  { intros j' Hj'. rewrite polled_lookup by (assumption || lia). unfold sub_spec.
    pose proof (pow2_nat_mono (S j') (Nat.log2 t) ltac:(lia)) as Hm.
    pose proof (pow2_nat_pos j').
    destruct (Nat.ltb_spec (t - 1) (2 ^ j' - 1));
      [rewrite Nat.pow_succ_r' in Hm; lia|].
    destruct (Nat.ltb_spec (t - 1) (2 ^ S j' - 1)); [lia|reflexivity]. }
  repeat split; [exact E1|exact E2|now apply (first_value_least _ _ _ E1)|].
  replace (2 ^ k - 1 + t)%nat with (2 ^ k + (t - 1))%nat by lia.
  rewrite zip_obs by (assumption || lia). cbn [snd]. do 3 f_equal. lia.
Qed.

(** C10. In delegation round [t] of [1 .. 2^k - 1] the generator polls
    its [k] sub-generators, the one of order [j] in position [j]; that one
    offers a value exactly when [2^j <= t <= 2^(j+1) - 1]; these intervals
    are disjoint and cover all the rounds, so exactly one sub-generator
    offers a value and the selection yields it instead of failing. *)
Theorem exactly_one_offer (k : nat) (x : Block) (t : nat) :
  chain_truthy k x = true -> (1 <= t <= 2 ^ k - 1)%nat ->
  subgens (steps (2 ^ k - 1 + t) (P (Z.of_nat k) (Some x)))
  = map (fun j => steps (t - 1) (sub k x j)) (seq 0 k)
  /\ (forall j, (j < k)%nat ->
        (exists b, polled k x t !! j = Some (Some b))
        <-> (2 ^ j <= t <= 2 ^ (j + 1) - 1)%nat)
  /\ (exists j, (j < k)%nat /\ (2 ^ j <= t <= 2 ^ (j + 1) - 1)%nat
        /\ forall j', (2 ^ j' <= t <= 2 ^ (j' + 1) - 1)%nat -> j' = j)
  /\ (exists b, (obs (2 ^ k - 1 + t) (P (Z.of_nat k) (Some x))).2 = Yield (Some b)).
Proof.
  intros Hx Ht. split; [|split; [|split]].
  - rewrite subgens_state by (assumption || lia). unfold subs0.
    now rewrite map_map.
  - intros j Hj. rewrite polled_lookup by (assumption || lia). unfold sub_spec.
    rewrite Nat.add_1_r. pose proof (pow2_nat_pos j).
    destruct (Nat.ltb_spec (t - 1) (2 ^ j - 1)).
    { cbn [fill]. split; [intros [b Hb]; discriminate|lia]. }
    destruct (Nat.ltb_spec (t - 1) (2 ^ S j - 1)); cbn [fill].
    + split; [lia|]. intros _. now eexists.
    + split; [intros [b Hb]; discriminate|lia].
  - pose proof (Nat.log2_spec t ltac:(lia)) as Hl.
    exists (Nat.log2 t). split; [apply Nat.log2_lt_pow2; lia|].
    rewrite Nat.add_1_r. split; [lia|].
    intros j' Hj'. rewrite Nat.add_1_r in Hj'.
    symmetry. apply Nat.log2_unique; lia.
  - replace (2 ^ k - 1 + t)%nat with (2 ^ k + (t - 1))%nat by lia.
    rewrite zip_obs by (assumption || lia). now eexists.
Qed.

(** C8. When the build phase of an order-[k] pebbler, [k >= 1], is over
    (after round [n - 1]), slot [j] holds [f^(2^k - 2^j)(x)] for every
    [j]: slot [0] holds [x_{n-1}], which round [n] yields, and slot [k]
    still holds the seed; the next call creates the [k] sub-generators,
    the one of order [i - 1] with the value of slot [i] as its seed. *)
Theorem build_phase_result (k : nat) (x : Block) :
  (1 <= k)%nat ->
  exists y,
    steps (2 ^ k - 1) (P (Z.of_nat k) (Some x)) = Building k (y, 0%nat, 0%nat) (2 ^ k - 1)
    /\ (forall j, (j <= k)%nat -> y !! j = Some (Some (chain x (2 ^ k - 2 ^ j))))
    /\ y !! 0%nat = Some (Some (chain x (2 ^ k - 1)))
    /\ y !! k = Some (Some x)
    /\ step (Building k (y, 0%nat, 0%nat) (2 ^ k - 1))
       = (([], Yield (Some (chain x (2 ^ k - 1)))), Emitted k y)
    /\ spawn k y
       = Some (map (fun i : nat => (Z.of_nat i - 1, Some (chain x (2 ^ k - 2 ^ i))))
                 (seq 1 k))
    /\ step (Emitted k y)
       = zip_next k y (map (fun i : nat =>
                              step (P (Z.of_nat i - 1) (Some (chain x (2 ^ k - 2 ^ i)))))
                         (seq 1 k)).
Proof.
  intros Hk. exists (final_slots k x).
  assert (Hp : (2 <= 2 ^ k)%nat).
  { destruct k as [|k]; [lia|]. pose proof (pow2_nat_pos k).
    rewrite Nat.pow_succ_r'. lia. }
  destruct (build_state k x (2 ^ k - 1) ltac:(lia)) as (c & Hinv & E).
  rewrite cum_total in Hinv. apply build_inv_final in Hinv. subst c.
  assert (Es : spawn k (final_slots k x)
               = Some (map (fun i : nat =>
                              (Z.of_nat i - 1, Some (chain x (2 ^ k - 2 ^ i))))
                         (seq 1 k))).
  { rewrite spawn_final. f_equal. rewrite <- seq_shift, map_map.
    apply map_ext. intros j. f_equal. lia. }
  split; [exact E|].
  split; [intros j Hj; now apply final_slots_lookup|].
  split; [rewrite final_slots_lookup by lia; reflexivity|].
  split; [rewrite final_slots_lookup by lia; now rewrite Nat.sub_diag|].
  split; [rewrite <- E, emit_round; reflexivity|].
  split; [exact Es|].
  cbn [step]. rewrite Es. now rewrite map_map.
Qed.

(** C9, as amended. The code checks no order: creating the generator
    never fails; for a negative order it is the first call of [next()]
    that raises (a [TypeError], from [range(1, 2**k)] with a float bound),
    after which the generator is exhausted; for an order [k >= 0] no call
    raises. *)
Theorem order_not_checked (k : Z) (x : Block) :
  P k (Some x) = Created k (Some x)
  /\ (k < 0 ->
      obs 0 (P k (Some x)) = ([], Raise TypeError)
      /\ forall n, obs (S n) (P k (Some x)) = ([], Stop))
  /\ (0 <= k -> chain_truthy (Z.to_nat k) x = true ->
      forall n e, (obs n (P k (Some x))).2 <> Raise e).
Proof.
  split; [reflexivity|]. split.
  - intros Hk.
    assert (E : step (P k (Some x)) = (([], Raise TypeError), Finished)).
    { cbn [P step]. unfold start. now destruct (Z.ltb_spec k 0); [|lia]. }
    split; [unfold obs; cbn [steps]; now rewrite E|].
    intros n. unfold obs.
    replace (S n) with (n + 1)%nat by lia.
    rewrite steps_add. cbn [steps]. rewrite E. cbn [snd].
    now rewrite steps_Finished.
  - intros Hk Hx n e.
    rewrite <- (Z2Nat.id k Hk), outputs_ok_all by assumption.
    unfold out_spec.
    destruct (_ <? _)%nat; [discriminate|].
    destruct (_ <? _)%nat; discriminate.
Qed.
End Properties.

(** C2, as amended. For every order [k] and round [r] of [1 .. 2^k - 1],
    [tS(k, r)] lies in [[0, floor(k/2) + 1]]; it is at most [ceil(k/2)] in
    every round but the last one, [r = 2^k - 1], where it is
    [floor(k/2) + 1]; the sum over all these rounds is [2^k - 1]. *)
Theorem tS_bounds_and_sum (k : nat) (r : Z) :
  1 <= r <= 2 ^ Z.of_nat k - 1 ->
  0 <= tS (Z.of_nat k) r <= Z.of_nat k / 2 + 1
  /\ (r < 2 ^ Z.of_nat k - 1 -> tS (Z.of_nat k) r <= (Z.of_nat k + 1) / 2)
  /\ tS (Z.of_nat k) (2 ^ Z.of_nat k - 1) = Z.of_nat k / 2 + 1
  /\ zsum (tS (Z.of_nat k)) (2 ^ k - 1) = 2 ^ Z.of_nat k - 1.
Proof.
  intros Hr. split; [now apply tS_range|].
  split; [intros Hlt; apply tS_ceil; lia|].
  split; [|apply tS_sum].
  apply tS_last. destruct k as [|k]; [|lia].
  change (2 ^ Z.of_nat 0) with 1 in Hr. lia.
Qed.

(** The last build round of order 2. *)
Lemma tS_bounds_and_sum_witness :
  1 <= 3 <= 2 ^ Z.of_nat 2 - 1
  /\ (0 <= tS (Z.of_nat 2) 3 <= Z.of_nat 2 / 2 + 1
      /\ (3 < 2 ^ Z.of_nat 2 - 1 -> tS (Z.of_nat 2) 3 <= (Z.of_nat 2 + 1) / 2)
      /\ tS (Z.of_nat 2) (2 ^ Z.of_nat 2 - 1) = Z.of_nat 2 / 2 + 1
      /\ zsum (tS (Z.of_nat 2)) (2 ^ 2 - 1) = 2 ^ Z.of_nat 2 - 1).
Proof.
  split; [vm_compute; split; discriminate|].
  apply (tS_bounds_and_sum 2 3). vm_compute. split; discriminate.
Defined.

(** C2 as stated fails: in the last build round of order [2] the formula
    gives [2], above [ceil(2/2) = 1]. *)
Lemma tS_exceeds_ceil :
  1 <= 3 <= 2 ^ 2 - 1 /\ tS 2 3 = 2 /\ ~ (0 <= tS 2 3 <= (2 + 1) / 2).
Proof.
  split; [vm_compute; split; discriminate|].
  split; [reflexivity|]. vm_compute. intros [_ H]. now apply H.
Qed.

(** The traversal of order 2 from [seed0]. *)
Lemma pebbler_output_witness :
  chain_truthy 2 seed0 = true
  /\ (map snd (run (2 ^ (2 + 1)) (P (Z.of_nat 2) (Some seed0)))
      = replicate (2 ^ 2 - 1) (Yield None)
        ++ map (fun i => Yield (Some (chain seed0 i))) (rev (seq 0 (2 ^ 2)))
        ++ [Stop]
      /\ run 2 (P 0 (Some seed0)) = [([], Yield (Some seed0)); ([], Stop)]).
Proof.
  split; [reflexivity|]. apply (pebbler_output 2 seed0). reflexivity.
Defined.

(** Order 2 from [seed0]: build round 3, round 4 and emission round 5. *)
Lemma evals_per_round_witness :
  chain_truthy 2 seed0 = true
  /\ Z.of_nat (cost (3 - 1) (P (Z.of_nat 2) (Some seed0))) = tS (Z.of_nat 2) (Z.of_nat 3)
  /\ cost (2 ^ 2 - 1) (P (Z.of_nat 2) (Some seed0)) = 0%nat
  /\ cost (2 ^ 2 - 1 + 1) (P (Z.of_nat 2) (Some seed0))
     = nsum (fun j => cost (1 - 1) (sub 2 seed0 j)) 2.
Proof.
  assert (Hx : chain_truthy 2 seed0 = true) by reflexivity.
  split; [exact Hx|].
  destruct (evals_per_round 2 seed0 Hx) as (Hb & Hn & He).
  split; [apply Hb; simpl; lia|]. split; [exact Hn|]. apply He. simpl. lia.
Defined.

(** C3 as stated fails: in round [n = 2] of an order-1 pebbler nothing is
    evaluated, while [tS(1, 2) = 1]. *)
Lemma round_n_evaluates_nothing :
  cost (2 - 1) (P 1 (Some seed0)) = 0%nat /\ tS 1 2 = 1
  /\ Z.of_nat (cost (2 - 1) (P 1 (Some seed0))) <> tS 1 2.
Proof. split; [reflexivity|]. split; [reflexivity|]. vm_compute. discriminate. Qed.

(** Order 2 from [seed0]: four evaluations, three of them in the build phase. *)
Lemma total_evaluations_witness :
  chain_truthy 2 seed0 = true
  /\ (nsum (fun n => cost n (P (Z.of_nat 2) (Some seed0))) (2 ^ (2 + 1) - 1)
      = (2 * 2 ^ (2 - 1))%nat
      /\ nsum (fun n => cost n (P (Z.of_nat 2) (Some seed0))) (2 ^ 2 - 1)
         = (2 ^ 2 - 1)%nat).
Proof.
  split; [reflexivity|]. apply (total_evaluations 2 seed0). reflexivity.
Defined.

(** C4 as stated fails: the traversal of an order-2 pebbler evaluates [f]
    four times over its seven rounds, not [n - 1 = 3] times. *)
Lemma order_2_evaluates_four_times :
  nsum (fun n => cost n (P 2 (Some seed0))) (2 * 2 ^ 2 - 1) = 4%nat
  /\ nsum (fun n => cost n (P 2 (Some seed0))) (2 * 2 ^ 2 - 1) <> (2 ^ 2 - 1)%nat.
Proof. split; [reflexivity|]. vm_compute. discriminate. Qed.

(** C5 fails on the code: after round 5 of an order-2 pebbler the slot
    arrays of the generator and of its two sub-generators hold six
    entries, four of them distinct Blocks, against the bound [k + 1 = 3]. *)
Lemma order_2_holds_four_blocks :
  length (held (steps 5 (P 2 (Some seed0)))) = 6%nat
  /\ length (remove_dups (held (steps 5 (P 2 (Some seed0))))) = 4%nat
  /\ (2 + 1 < 4)%nat.
Proof. split; [reflexivity|]. split; [reflexivity|]. lia. Qed.

(** Order 2 from [seed0], emission round [n + 2]. *)
Lemma selects_lowest_order_witness :
  chain_truthy 2 seed0 = true /\ (1 <= 2)%nat /\ (1 <= 2 <= 2 ^ 2 - 1)%nat
  /\ exists j b,
       polled 2 seed0 2 !! j = Some (Some b)
       /\ (forall j', (j' < j)%nat -> polled 2 seed0 2 !! j' = Some None)
       /\ first_value (polled 2 seed0 2) = Some b
       /\ (obs (2 ^ 2 - 1 + 2) (P (Z.of_nat 2) (Some seed0))).2 = Yield (Some b).
Proof.
  split; [reflexivity|]. split; [lia|]. split; [simpl; lia|].
  apply (selects_lowest_order 2 seed0 2); [reflexivity|lia|simpl; lia].
Defined.

(** Order 2 from the seeds [seed0] and [toy_f seed0]. *)
Lemma schedule_data_independent_witness :
  chain_truthy 2 seed0 = true /\ chain_truthy 2 (toy_f seed0) = true
  /\ forall n, shape (obs n (P (Z.of_nat 2) (Some seed0)))
               = shape (obs n (P (Z.of_nat 2) (Some (toy_f seed0)))).
Proof.
  split; [reflexivity|]. split; [reflexivity|].
  apply (schedule_data_independent 2 seed0 (toy_f seed0)); reflexivity.
Defined.

(** Order 2 from [seed0]. *)
Lemma build_phase_result_witness :
  (1 <= 2)%nat
  /\ exists y,
    steps (2 ^ 2 - 1) (P (Z.of_nat 2) (Some seed0))
    = Building 2 (y, 0%nat, 0%nat) (2 ^ 2 - 1)
    /\ (forall j, (j <= 2)%nat -> y !! j = Some (Some (chain seed0 (2 ^ 2 - 2 ^ j))))
    /\ y !! 0%nat = Some (Some (chain seed0 (2 ^ 2 - 1)))
    /\ y !! 2%nat = Some (Some seed0)
    /\ step (Building 2 (y, 0%nat, 0%nat) (2 ^ 2 - 1))
       = (([], Yield (Some (chain seed0 (2 ^ 2 - 1)))), Emitted 2 y)
    /\ spawn 2 y
       = Some (map (fun i : nat => (Z.of_nat i - 1, Some (chain seed0 (2 ^ 2 - 2 ^ i))))
                 (seq 1 2))
    /\ step (Emitted 2 y)
       = zip_next 2 y (map (fun i : nat =>
                              step (P (Z.of_nat i - 1) (Some (chain seed0 (2 ^ 2 - 2 ^ i)))))
                         (seq 1 2)).
Proof. split; [lia|]. apply (build_phase_result 2 seed0). lia. Defined.

(** The orders [-1] and [2] with the seed [seed0]. *)
Lemma order_not_checked_witness :
  (-1 < 0 /\ 0 <= 2 /\ chain_truthy (Z.to_nat 2) seed0 = true)
  /\ (obs 0 (P (-1) (Some seed0)) = ([], Raise TypeError)
      /\ forall n, obs (S n) (P (-1) (Some seed0)) = ([], Stop))
  /\ (forall n e, (obs n (P 2 (Some seed0))).2 <> Raise e).
Proof.
  split; [split; [lia|split; [lia|reflexivity]]|].
  split.
  - apply (order_not_checked (-1) seed0). lia.
  - apply (order_not_checked 2 seed0); [lia|reflexivity].
Defined.

(** C9 as stated fails: the generator of order [-1] is created like any
    other, and the failure, a [TypeError], comes with its first round. *)
Lemma negative_order_fails_in_first_round :
  P (-1) (Some seed0) = Created (-1) (Some seed0)
  /\ (obs 0 (P (-1) (Some seed0))).2 = Raise TypeError.
Proof. split; reflexivity. Qed.

(** Order 2 from [seed0], delegation round 3. *)
Lemma exactly_one_offer_witness :
  chain_truthy 2 seed0 = true /\ (1 <= 3 <= 2 ^ 2 - 1)%nat
  /\ subgens (steps (2 ^ 2 - 1 + 3) (P (Z.of_nat 2) (Some seed0)))
     = map (fun j => steps (3 - 1) (sub 2 seed0 j)) (seq 0 2)
  /\ (forall j, (j < 2)%nat ->
        (exists b, polled 2 seed0 3 !! j = Some (Some b))
        <-> (2 ^ j <= 3 <= 2 ^ (j + 1) - 1)%nat)
  /\ (exists j, (j < 2)%nat /\ (2 ^ j <= 3 <= 2 ^ (j + 1) - 1)%nat
        /\ forall j', (2 ^ j' <= 3 <= 2 ^ (j' + 1) - 1)%nat -> j' = j)
  /\ (exists b, (obs (2 ^ 2 - 1 + 3) (P (Z.of_nat 2) (Some seed0))).2 = Yield (Some b)).
Proof.
  split; [reflexivity|]. split; [simpl; lia|].
  apply (exactly_one_offer 2 seed0 3); [reflexivity|simpl; lia].
Defined.

(** The peaks over whole traversals of orders [0 .. 4]: the arrays hold up
    to [(k+1)(k+2)/2] entries; they would hold [k + 1] if every generator
    released its array on entering the emission phase. *)
Example storage_peaks :
  map (fun k => (peak (fun s => length (held s)) (2 ^ (k + 1)) (P (Z.of_nat k) (Some seed0)),
                 peak in_use (2 ^ (k + 1)) (P (Z.of_nat k) (Some seed0))))
      [0; 1; 2; 3; 4]%nat
  = [(1, 1); (3, 2); (6, 3); (10, 4); (15, 5)]%nat.
Proof. vm_compute. reflexivity. Qed.

(** Why the chain values must be true: with integer Blocks, the seed [0]
    of an order-1 pebbler is filtered out of the tuple and the selection
    has nothing to return. *)
Example false_block_is_filtered_out :
  map snd (@run Z int_oneway 3 (P 1 (Some 0)))
  = [Yield None; Yield (Some 1); Raise RuntimeError].
Proof. reflexivity. Qed.

(** * Further properties of the code *)

(** * Further properties of the schedule *)

Lemma carry_len_pow2 (j : Z) : 0 <= j -> carry_len (2 ^ j) = 0.
Proof.
  intros Hj. unfold carry_len.
  rewrite (bit_length_unique (2 ^ j) (j + 1)).
  - replace (- (2 * 2 ^ j)) with (0 + (-1) * 2 ^ (j + 1)) by (rewrite pow2_succ; lia).
    rewrite Z_mod_plus_full, Z.mod_0_l; [reflexivity|].
    pose proof (pow2_pos (j + 1)). lia.
  - lia.
  - replace (j + 1 - 1) with j by lia. rewrite pow2_succ by lia.
    pose proof (pow2_pos j Hj). lia.
Qed.

Lemma carry_len_upper (j u : Z) :
  1 <= j -> 1 <= u < 2 ^ (j - 1) -> carry_len (2 ^ j - u) = bit_length u + 1.
Proof.
  intros Hj Hu. unfold carry_len.
  pose proof (pow2_pred j Hj) as E.
  rewrite (bit_length_unique (2 ^ j - u) j) by lia.
  replace (- (2 * (2 ^ j - u))) with (2 * u + (-2) * 2 ^ j) by lia.
  rewrite Z_mod_plus_full, (Z.mod_small (2 * u)) by lia.
  apply bit_length_double. lia.
Qed.

Lemma carry_len_below (k s : Z) :
  1 <= k -> 1 <= s <= 2 ^ (k - 1) -> carry_len s <= k - 1.
Proof.
  intros Hk Hs. destruct (Z.eq_dec s (2 ^ (k - 1))) as [->|Hne].
  - rewrite carry_len_pow2 by lia. lia.
  - pose proof (carry_len_range s ltac:(lia)) as [_ Hc].
    assert (bit_length s <= k - 1) by (apply bit_length_le; lia). lia.
Qed.

Lemma tS_zero_iff_aux (k : nat) (r : Z) :
  1 <= r <= 2 ^ Z.of_nat k - 1 ->
  (tS (Z.of_nat k) r = 0 <-> r < 2 ^ (Z.of_nat k - 1)).
Proof.
  intros Hr. destruct k as [|k]; [change (2 ^ Z.of_nat 0) with 1 in Hr; lia|].
  set (K := Z.of_nat (S k)) in *. assert (HK : 1 <= K) by lia.
  pose proof (pow2_pred K HK) as EK.
  split; [|intros; apply tS_low; lia].
  intros E0. destruct (Z.lt_ge_cases r (2 ^ (K - 1))) as [|Hge]; [assumption|exfalso].
  replace r with (2 ^ K - (2 ^ K - r)) in E0 by lia.
  rewrite tS_mirror in E0 by lia. unfold tS_back in E0.
  pose proof (carry_len_below K (2 ^ K - r) HK ltac:(lia)).
  revert E0. Z.div_mod_to_equations. lia.
Qed.

Lemma nsum_two (g : nat -> nat) (k a : nat) :
  (a < k)%nat ->
  (forall j, (j < k)%nat -> j <> a -> j <> S a -> g j = 0%nat) ->
  nsum g k = (g a + if (S a <? k)%nat then g (S a) else 0)%nat.
Proof.
  intros Ha Hz.
  replace k with (a + (1 + (k - S a)))%nat at 1 by lia.
  rewrite nsum_app, nsum_zero by (intros; apply Hz; lia).
  rewrite nsum_app. cbn [nsum]. rewrite !Nat.add_0_r.
  destruct (Nat.ltb_spec (S a) k) as [Hlt|Hge].
  - replace (k - S a)%nat with (1 + (k - S (S a)))%nat by lia.
    rewrite nsum_app. cbn [nsum].
    rewrite (nsum_zero _ (k - S (S a))) by (intros; apply Hz; lia).
    replace (a + (1 + 0))%nat with (S a) by lia. lia.
  - replace (k - S a)%nat with 0%nat by lia. cbn [nsum]. lia.
Qed.

Section EmissionWork.
Context {Block : Type} {OW : OneWay Block}.

Lemma emission_cost_sum (k : nat) (x : Block) (t : nat) :
  chain_truthy k x = true -> (1 <= t <= 2 ^ k)%nat ->
  cost (2 ^ k - 1 + t) (P (Z.of_nat k) (Some x))
  = nsum (fun j => cost (t - 1) (sub k x j)) k.
Proof.
  intros Hx Ht. unfold cost at 1.
  replace (2 ^ k - 1 + t)%nat with (2 ^ k + (t - 1))%nat by lia.
  rewrite zip_events by (assumption || lia).
  unfold subs0. rewrite map_map. apply length_concat_seq.
Qed.

(** The evaluations of an emission round, counted from the end of the
    traversal: with [s = 2^k - t] rounds still to come. *)
Lemma emission_cost (k : nat) (x : Block) (t : nat) :
  chain_truthy k x = true -> (1 <= t <= 2 ^ k - 1)%nat ->
  Z.of_nat (cost (2 ^ k - 1 + t) (P (Z.of_nat k) (Some x)))
  = (carry_len (2 ^ Z.of_nat k - Z.of_nat t)
     + (2 ^ Z.of_nat k - Z.of_nat t) mod 2) / 2.
Proof.
  revert x t. induction k as [k IH] using lt_wf_ind. intros x t Hx Ht.
  rewrite emission_cost_sum by (assumption || lia).
  pose proof (Nat.log2_spec t ltac:(lia)) as Hl.
  set (j0 := Nat.log2 t) in *.
  assert (Hj0 : (j0 < k)%nat) by (apply Nat.log2_lt_pow2; lia).
  pose proof (pow2_nat j0) as Ej0. pose proof (pow2_nat k) as Ek.
  pose proof (pow2_nat_pos j0) as Hp0.
  assert (E2 : (2 ^ S j0 = 2 * 2 ^ j0)%nat) by apply Nat.pow_succ_r'.
  set (s' := 2 ^ (Z.of_nat j0 + 1) - Z.of_nat t).
  assert (Es' : 1 <= s' <= 2 ^ Z.of_nat j0).
  { unfold s'. rewrite pow2_succ by lia. lia. }
  (* the sub-generator of order [j0] is emitting *)
  assert (Ga : Z.of_nat (cost (t - 1) (sub k x j0)) = (carry_len s' + s' mod 2) / 2).
  { destruct (Nat.eq_dec t (2 ^ j0)%nat) as [Et|Hne].
    - unfold cost, sub. replace (t - 1)%nat with (2 ^ j0 - 1)%nat by lia.
      rewrite emit_obs. cbn [fst length].
      replace s' with (2 ^ Z.of_nat j0)
        by (unfold s'; rewrite pow2_succ by lia; lia).
      rewrite carry_len_pow2 by lia. Z.div_mod_to_equations. lia.
    - unfold sub. replace (t - 1)%nat with (2 ^ j0 - 1 + (t - 2 ^ j0))%nat by lia.
      rewrite IH by (try apply chain_truthy_sub; assumption || lia).
      replace (2 ^ Z.of_nat j0 - Z.of_nat (t - 2 ^ j0)) with s'; [reflexivity|].
      unfold s'. rewrite pow2_succ by lia. lia. }
  (* the one of order [j0 + 1] is in the second half of its build phase *)
  assert (Gb : (S j0 < k)%nat ->
               Z.of_nat (cost (t - 1) (sub k x (S j0)))
               = tS_back (Z.of_nat j0 + 1) s').
  { intros Hlt. unfold sub. rewrite build_cost by lia.
    replace (S (t - 1)) with t by lia.
    rewrite Z2Nat.id.
    - replace (Z.of_nat (S j0)) with (Z.of_nat j0 + 1) by lia.
      replace (Z.of_nat t) with (2 ^ (Z.of_nat j0 + 1) - s') by (unfold s'; lia).
      apply tS_mirror; [lia|]. now replace (Z.of_nat j0 + 1 - 1) with (Z.of_nat j0) by lia.
    - apply tS_range. rewrite <- pow2_nat. lia. }
  rewrite (nsum_two _ k j0 Hj0).
  2:{ intros j Hj Hn1 Hn2. unfold cost, sub.
      destruct (Nat.lt_ge_cases j j0) as [Hlo|Hhi].
      - pose proof (pow2_nat_mono (j + 1) j0 ltac:(lia)).
        rewrite quiet; [reflexivity|apply chain_truthy_sub; assumption || lia|lia].
      - assert (Hj2 : (S (S j0) <= j)%nat) by lia.
        pose proof (pow2_nat_mono (S j0) (j - 1) ltac:(lia)) as Hm.
        assert (E2j : (2 ^ j = 2 * 2 ^ (j - 1))%nat).
        { replace j with (S (j - 1)) at 1 by lia. apply Nat.pow_succ_r'. }
        fold (cost (t - 1) (P (Z.of_nat j) (Some (chain x (2 ^ k - 2 ^ S j))))).
        rewrite build_cost by lia.
        replace (S (t - 1)) with t by lia.
        rewrite tS_low; [reflexivity|lia|].
        replace (Z.of_nat j - 1) with (Z.of_nat (j - 1)) by lia.
        rewrite <- pow2_nat. lia. }
  destruct (Nat.ltb_spec (S j0) k) as [Hlt|Hge].
  - rewrite Nat2Z.inj_add, Ga, Gb by assumption.
    pose proof (pow2_nat_mono (S j0) (k - 1) ltac:(lia)) as Hm.
    assert (E2k : 2 ^ Z.of_nat k = 2 * 2 ^ (Z.of_nat k - 1)) by (apply pow2_pred; lia).
    assert (Ekm : Z.of_nat (2 ^ (k - 1)) = 2 ^ (Z.of_nat k - 1)).
    { rewrite pow2_nat. f_equal. lia. }
    rewrite (carry_len_upper (Z.of_nat k) (Z.of_nat t)) by lia.
    rewrite (bit_length_unique (Z.of_nat t) (Z.of_nat j0 + 1)).
    2: lia.
    2:{ replace (Z.of_nat j0 + 1 - 1) with (Z.of_nat j0) by lia.
        rewrite pow2_succ by lia. lia. }
    unfold tS_back.
    assert (Ep : (2 ^ Z.of_nat k - Z.of_nat t) mod 2 = s' mod 2).
    { unfold s'. rewrite pow2_succ by lia.
      replace (2 ^ Z.of_nat k - Z.of_nat t)
        with (2 * 2 ^ Z.of_nat j0 - Z.of_nat t
              + (2 ^ (Z.of_nat k - 1) - 2 ^ Z.of_nat j0) * 2) by lia.
      apply Z_mod_plus_full. }
    rewrite Ep. Z.div_mod_to_equations. lia.
  - rewrite Nat.add_0_r, Ga. assert (k = S j0) by lia. subst k.
    unfold s'. now replace (Z.of_nat (S j0)) with (Z.of_nat j0 + 1) by lia.
Qed.
End EmissionWork.

Section EmissionBound.
Context {Block : Type} {OW : OneWay Block}.

(** X1. In no emission round does a pebbler of order [k], with all its
    sub-generators, evaluate [f] more than [ceil(k/2)] times; for
    [k >= 2] the round [n + 2^(k-1) - 1] needs exactly that many. *)
Theorem emission_work_bound (k : nat) (x : Block) (t : nat) :
  chain_truthy k x = true -> (t <= 2 ^ k - 1)%nat ->
  (cost (2 ^ k - 1 + t) (P (Z.of_nat k) (Some x)) <= (k + 1) / 2)%nat
  /\ ((2 <= k)%nat ->
      cost (2 ^ k - 1 + (2 ^ (k - 1) - 1)) (P (Z.of_nat k) (Some x))
      = ((k + 1) / 2)%nat).
Proof.
  intros Hx Ht. pose proof (pow2_nat k) as Ek. pose proof (pow2_nat_pos k) as Hp.
  split.
  - destruct t as [|t].
    { rewrite Nat.add_0_r. unfold cost. rewrite emit_obs. cbn. lia. }
    apply Nat2Z.inj_le. rewrite emission_cost by (assumption || lia).
    rewrite Nat2Z.inj_div.
    set (s := 2 ^ Z.of_nat k - Z.of_nat (S t)).
    assert (Hs : 1 <= s < 2 ^ Z.of_nat k) by (unfold s; lia).
    pose proof (carry_len_range s ltac:(lia)) as [_ Hc].
    assert (bit_length s <= Z.of_nat k) by (apply bit_length_le; lia).
    replace (Z.of_nat (k + 1)) with (Z.of_nat k + 1) by lia.
    change (Z.of_nat 2) with 2. Z.div_mod_to_equations. lia.
  - intros Hk.
    assert (E2k : (2 ^ k = 2 * 2 ^ (k - 1))%nat).
    { replace k with (S (k - 1)) at 1 by lia. apply Nat.pow_succ_r'. }
    assert (E2m : (2 ^ (k - 1) = 2 * 2 ^ (k - 2))%nat).
    { replace (k - 1)%nat with (S (k - 2)) at 1 by lia. apply Nat.pow_succ_r'. }
    pose proof (pow2_nat_pos (k - 2)) as Hp2.
    pose proof (pow2_nat (k - 1)) as Ek1. pose proof (pow2_nat (k - 2)) as Ek2.
    apply Nat2Z.inj. rewrite emission_cost by (assumption || lia).
    rewrite Nat2Z.inj_div.
    replace (2 ^ Z.of_nat k - Z.of_nat (2 ^ (k - 1) - 1))
      with (2 ^ Z.of_nat k - (2 ^ Z.of_nat (k - 1) - 1)) by lia.
    rewrite carry_len_upper.
    + rewrite (bit_length_unique _ (Z.of_nat k - 1)).
      * replace (2 ^ Z.of_nat k - (2 ^ Z.of_nat (k - 1) - 1))
          with (1 + (2 ^ Z.of_nat (k - 2)) * 2) by lia.
        rewrite Z_mod_plus_full.
        replace (Z.of_nat (k + 1)) with (Z.of_nat k + 1) by lia.
        change (Z.of_nat 2) with 2. Z.div_mod_to_equations. lia.
      * lia.
      * replace (Z.of_nat k - 1 - 1) with (Z.of_nat (k - 2)) by lia.
        replace (Z.of_nat k - 1) with (Z.of_nat (k - 1)) by lia. lia.
    + lia.
    + replace (Z.of_nat k - 1) with (Z.of_nat (k - 1)) by lia. lia.
Qed.

(** X2. The work of the emission rounds in closed form: round [n + t]
    with [t < 2^(k-1)] needs [(log2 t + 2 + t mod 2) / 2] evaluations,
    round [n + 2^(k-1)] needs none, and a later round [n + 2^(k-1) + u]
    needs what round [n' + u] of a pebbler of order [k - 1] needs. *)
Theorem emission_work_shape (k : nat) (x y : Block) :
  chain_truthy (S k) x = true -> chain_truthy k y = true ->
  (forall t, (1 <= t < 2 ^ k)%nat ->
     Z.of_nat (cost (2 ^ S k - 1 + t) (P (Z.of_nat (S k)) (Some x)))
     = (Z.log2 (Z.of_nat t) + 2 + Z.of_nat t mod 2) / 2)
  /\ cost (2 ^ S k - 1 + 2 ^ k) (P (Z.of_nat (S k)) (Some x)) = 0%nat
  /\ (forall u, (1 <= u <= 2 ^ k - 1)%nat ->
        cost (2 ^ S k - 1 + (2 ^ k + u)) (P (Z.of_nat (S k)) (Some x))
        = cost (2 ^ k - 1 + u) (P (Z.of_nat k) (Some y))).
Proof.
  intros Hx Hy. pose proof (pow2_nat k) as Ek. pose proof (pow2_nat (S k)) as ESk.
  pose proof (pow2_nat_pos k) as Hp.
  assert (E2 : (2 ^ S k = 2 * 2 ^ k)%nat) by apply Nat.pow_succ_r'.
  split; [|split].
  - intros t Ht. rewrite emission_cost by (assumption || lia).
    rewrite carry_len_upper.
    + rewrite bit_length_pos by lia.
      replace (2 ^ Z.of_nat (S k) - Z.of_nat t)
        with (- Z.of_nat t + (2 ^ Z.of_nat k) * 2) by lia.
      rewrite Z_mod_plus_full. Z.div_mod_to_equations. lia.
    + lia.
    + replace (Z.of_nat (S k) - 1) with (Z.of_nat k) by lia. lia.
  - apply Nat2Z.inj. rewrite emission_cost by (assumption || lia).
    replace (2 ^ Z.of_nat (S k) - Z.of_nat (2 ^ k)) with (2 ^ Z.of_nat k) by lia.
    rewrite carry_len_pow2 by lia. Z.div_mod_to_equations. lia.
  - intros u Hu. apply Nat2Z.inj.
    rewrite !emission_cost by (assumption || lia).
    now replace (2 ^ Z.of_nat (S k) - Z.of_nat (2 ^ k + u))
      with (2 ^ Z.of_nat k - Z.of_nat u) by lia.
Qed.
End EmissionBound.

(** X3. In the build phase of an order-[k] pebbler nothing is evaluated
    before round [2^(k-1)], and at least one evaluation is made in every
    round from then on. *)
Theorem tS_zero_iff (k : nat) (r : Z) :
  1 <= r <= 2 ^ Z.of_nat k - 1 ->
  (tS (Z.of_nat k) r = 0 <-> r < 2 ^ (Z.of_nat k - 1))
  /\ (2 ^ (Z.of_nat k - 1) <= r -> 1 <= tS (Z.of_nat k) r).
Proof.
  intros Hr. pose proof (tS_zero_iff_aux k r Hr) as Hz.
  split; [exact Hz|]. intros Hge.
  pose proof (tS_range k r Hr). destruct Hz as [Hz _].
  destruct (Z.eq_dec (tS (Z.of_nat k) r) 0) as [E|]; [|lia].
  specialize (Hz E). lia.
Qed.

Lemma writes_run (g n i : nat) :
  writes (g + n) i g = replicate g i ++ writes n i 0.
Proof.
  induction g as [|g IH]; [reflexivity|].
  cbn [Nat.add writes replicate app]. now rewrite IH.
Qed.

Lemma writes_all (i : nat) :
  writes (2 ^ i - 1) i 0
  = concat (map (fun j => replicate (2 ^ j) j) (rev (seq 0 i))).
Proof.
  induction i as [|i IH]; [reflexivity|].
  pose proof (pow2_nat_pos i) as Hp.
  replace (2 ^ S i - 1)%nat with (S ((2 ^ i - 1) + (2 ^ i - 1)))
    by (rewrite Nat.pow_succ_r'; lia).
  cbn [writes]. rewrite writes_run, IH.
  rewrite seq_S, rev_app_distr. cbn [rev app map concat Nat.add].
  assert (Er : replicate (2 ^ i) i = i :: replicate (2 ^ i - 1) i).
  { replace (2 ^ i)%nat with (S (2 ^ i - 1)) at 1 by lia. reflexivity. }
  now rewrite Er.
Qed.

Section BuildPhase.
Context {Block : Type} {OW : OneWay Block}.

Lemma advances_app (n m : nat) (c : cursor) :
  advances (n + m) c
  = match advances n c with
    | (ws, inr c') => let '(ws', res) := advances m c' in (ws ++ ws', res)
    | (ws, inl e) => (ws, inl e)
    end.
Proof.
  revert c. induction n as [|n IH]; intros c.
  - cbn [Nat.add advances]. now destruct (advances m c).
  - cbn [Nat.add advances]. destruct (advance c) as [e|c1]; [reflexivity|].
    rewrite IH. destruct (advances n c1) as [ws [e|c2]]; [reflexivity|].
    now destruct (advances m c2).
Qed.

Lemma writes_split (k : nat) (x : Block) (N n : nat) (c : cursor) :
  build_inv k x N c -> (N + n <= 2 ^ k - 1)%nat ->
  writes (N + n) k 0 = writes N k 0 ++ writes n c.1.2 c.2.
Proof.
  intros Hc Hn.
  destruct (advances_inv k x N 0 _ (build_inv_init k x) ltac:(lia))
    as (wsN & cN & EN & HN & _).
  destruct (advances_inv k x n N cN HN Hn) as (wsn & c' & En & _ & _).
  pose proof (advances_app N n (init_cursor k (Some x))) as Ea.
  rewrite EN, En in Ea.
  apply advances_writes in Ea. apply advances_writes in EN.
  apply advances_writes in En. cbn [init_cursor fst snd] in Ea, EN.
  destruct (build_inv_cursor k x x N c cN Hc HN) as [-> ->].
  now rewrite <- Ea, <- EN, <- En.
Qed.

Lemma build_events (k : nat) (x : Block) (r : nat) :
  (r <= 2 ^ k - 1)%nat ->
  concat (map (fun n => (obs n (P (Z.of_nat k) (Some x))).1) (seq 0 r))
  = map (pair k) (writes (cum k r) k 0).
Proof.
  induction r as [|r IH]; intros Hr; [reflexivity|].
  rewrite seq_S, map_app, concat_app, IH by lia.
  cbn [map concat Nat.add]. rewrite app_nil_r.
  destruct (build_round k x r ltac:(lia)) as (c & Hc & E). rewrite E.
  cbn [fst cum]. rewrite <- map_app. f_equal. symmetry.
  apply (writes_split k x); [assumption|].
  pose proof (cum_bound k (S r) Hr) as Hb. now cbn [cum] in Hb.
Qed.

(** X4. Over its build phase an order-[k] pebbler writes slot [k-1]
    [2^(k-1)] times, then slot [k-2] [2^(k-2)] times, and so on down to
    slot [0], which it writes once. *)
Theorem build_writes (k : nat) (x : Block) :
  concat (map (fun n => (obs n (P (Z.of_nat k) (Some x))).1) (seq 0 (2 ^ k - 1)))
  = concat (map (fun j => replicate (2 ^ j) (k, j)) (rev (seq 0 k))).
Proof.
  rewrite build_events, cum_total, writes_all by lia.
  induction (rev (seq 0 k)) as [|j l IH]; [reflexivity|].
  cbn [map concat]. rewrite map_app, IH. f_equal.
  induction (2 ^ j)%nat as [|m IHm]; [reflexivity|].
  cbn [replicate map]. now rewrite IHm.
Qed.

(** X5. After every build round [r] the generator is suspended with a
    cursor [(i, g)] and an array of [k + 1] slots in which the slots below
    [i] are still [None], slot [i] holds [f^N(x)] for the number [N] of
    advances made so far, and every slot [j] above [i] holds its final
    value [f^(2^k - 2^j)(x)]; [N + g + 2^i = 2^k]. *)
Theorem build_round_state (k : nat) (x : Block) (r : nat) :
  (1 <= r <= 2 ^ k - 1)%nat ->
  exists y i g,
    steps r (P (Z.of_nat k) (Some x)) = Building k (y, i, g) r
    /\ length y = S k /\ (i <= k)%nat /\ (g < 2 ^ i)%nat
    /\ (cum k r + g + 2 ^ i = 2 ^ k)%nat
    /\ (forall j, (j < i)%nat -> y !! j = Some None)
    /\ y !! i = Some (Some (chain x (cum k r)))
    /\ (forall j, (i < j <= k)%nat -> y !! j = Some (Some (chain x (2 ^ k - 2 ^ j)))).
Proof.
  intros Hr. destruct (build_state k x r Hr) as ([[y i] g] & Hinv & E).
  destruct Hinv as (Hi & Hg & HN & Hy). cbn [fst snd] in *.
  exists y, i, g. split; [exact E|]. subst y. unfold build_slots.
  split.
  { rewrite length_app, length_replicate. cbn [length].
    rewrite length_map, length_seq. lia. }
  do 3 (split; [assumption|]).
  split; [|split].
  - intros j Hj. rewrite lookup_app_l by (rewrite length_replicate; lia).
    now apply lookup_replicate_2.
  - apply list_lookup_middle. now rewrite length_replicate.
  - intros j Hj. rewrite lookup_app_r by (rewrite length_replicate; lia).
    rewrite length_replicate, lookup_cons_ne_0 by lia.
    rewrite list_lookup_fmap, lookup_seq_lt by lia.
    now replace (S i + Nat.pred (j - i))%nat with j by lia.
Qed.
End BuildPhase.

Section Uses.
Context {Block : Type} {OW : OneWay Block}.

Lemma print_rounds_spec (k : nat) (x : Block) (d m fuel : nat) :
  chain_truthy k x = true ->
  (m + d = 2 ^ (k + 1) - 1)%nat -> (d < fuel)%nat ->
  print_rounds fuel k (steps m (P (Z.of_nat k) (Some x))) (S m)
  = (map (fun r => if (r <? 2 ^ k)%nat then Dash r
                   else Labelled r (Z.of_nat (2 ^ (k + 1) - 1 - r))
                          (chain x (2 ^ (k + 1) - 1 - r)))
       (seq (S m) d), Printed).
Proof.
  intros Hx. pow2_facts k. pose proof (pow2_nat (k + 1)) as Ek.
  revert m fuel. induction d as [|d IH]; intros m fuel Hm Hf.
  - destruct fuel as [|fuel]; [lia|]. cbn [print_rounds seq map].
    rewrite step_obs.
    pose proof (outputs_ok_all k x Hx m) as Eo. unfold out_spec in Eo.
    destruct (Nat.ltb_spec m (2 ^ k - 1)); [lia|].
    destruct (Nat.ltb_spec m (2 ^ (k + 1) - 1)); [lia|].
    destruct (obs m _) as [evs o]. cbn [snd] in Eo. now subst o.
  - destruct fuel as [|fuel]; [lia|]. cbn [print_rounds seq map].
    rewrite step_obs.
    pose proof (outputs_ok_all k x Hx m) as Eo. unfold out_spec in Eo.
    destruct (obs m _) as [evs o]. cbn [snd] in Eo. subst o.
    rewrite (IH (S m) fuel) by lia.
    destruct (Nat.ltb_spec m (2 ^ k - 1)).
    + destruct (Nat.ltb_spec (S m) (2 ^ k)); [reflexivity|lia].
    + destruct (Nat.ltb_spec m (2 ^ (k + 1) - 1)); [|lia].
      destruct (Nat.ltb_spec (S m) (2 ^ k)); [lia|].
      do 2 f_equal. f_equal; [|f_equal; lia].
      replace (Z.of_nat k + 1) with (Z.of_nat (k + 1)) by lia. lia.
Qed.

(** X6. The driver of the notebook prints, for an order [k], as many
    round lines as its header announces, [2^(k+1) - 1]: a dash in the
    rounds before [2^k], and from round [2^k] on the label [x_i] with
    [i = 2^(k+1) - 1 - r] together with the value [f^i(x0)] that this
    label names; then the loop ends normally. *)
Theorem print_chain_labels (fuel k : nat) (x0 : Block) :
  chain_truthy k x0 = true -> (2 ^ (k + 1) <= fuel)%nat ->
  print_chain fuel k x0
  = (Header k (2 ^ Z.of_nat k) (2 ^ (Z.of_nat k + 1) - 1)
       :: map (fun r => if (r <? 2 ^ k)%nat then Dash r
                        else Labelled r (Z.of_nat (2 ^ (k + 1) - 1 - r))
                               (chain x0 (2 ^ (k + 1) - 1 - r)))
            (seq 1 (2 ^ (k + 1) - 1))
       ++ [Blank], Printed).
Proof.
  intros Hx Hf. unfold print_chain. pose proof (pow2_nat_pos (k + 1)).
  change (P (Z.of_nat k) (Some x0)) with (steps 0 (P (Z.of_nat k) (Some x0))).
  now rewrite (print_rounds_spec k x0 (2 ^ (k + 1) - 1) 0) by (assumption || lia).
Qed.

(** X7. Every value revealed after the first passes the check of the
    verifier: applying [f] to it gives the value revealed in the round
    before; the last value revealed is the seed. *)
Theorem revealed_values_verify (k : nat) (x : Block) (t : nat) :
  chain_truthy k x = true -> (1 <= t <= 2 ^ k - 1)%nat ->
  (exists v w,
     (obs (2 ^ k - 1 + t - 1) (P (Z.of_nat k) (Some x))).2 = Yield (Some v)
     /\ (obs (2 ^ k - 1 + t) (P (Z.of_nat k) (Some x))).2 = Yield (Some w)
     /\ f w = v)
  /\ (obs (2 ^ (k + 1) - 2) (P (Z.of_nat k) (Some x))).2 = Yield (Some x).
Proof.
  intros Hx Ht. pow2_facts k. rewrite !outputs_ok_all by assumption.
  unfold out_spec.
  destruct (Nat.ltb_spec (2 ^ k - 1 + t - 1) (2 ^ k - 1)); [lia|].
  destruct (Nat.ltb_spec (2 ^ k - 1 + t - 1) (2 ^ (k + 1) - 1)); [|lia].
  destruct (Nat.ltb_spec (2 ^ k - 1 + t) (2 ^ k - 1)); [lia|].
  destruct (Nat.ltb_spec (2 ^ k - 1 + t) (2 ^ (k + 1) - 1)); [|lia].
  destruct (Nat.ltb_spec (2 ^ (k + 1) - 2) (2 ^ k - 1)); [lia|].
  destruct (Nat.ltb_spec (2 ^ (k + 1) - 2) (2 ^ (k + 1) - 1)); [|lia].
  split.
  - do 2 eexists. split; [reflexivity|]. split; [reflexivity|].
    rewrite <- chain_S. f_equal. lia.
  - replace (2 ^ (k + 1) - 2 - (2 ^ (k + 1) - 2))%nat with 0%nat by lia.
    reflexivity.
Qed.

Lemma zip_gen_state (k : nat) (x : Block) (t : nat) :
  chain_truthy k x = true -> (1 <= t <= 2 ^ k - 1)%nat ->
  steps (2 ^ k + t) (P (Z.of_nat k) (Some x))
  = Zipping k (final_slots k x) (map (steps t) (subs0 k x)).
Proof.
  intros Hx Ht. destruct t as [|t]; [lia|].
  replace (2 ^ k + S t)%nat with (S (2 ^ k + t)) by lia.
  rewrite steps_S.
  rewrite (zip_state k x (fun j _ => outputs_ok_all j) Hx) by lia.
  now rewrite (zip_round_value k x (fun j _ => outputs_ok_all j) Hx) by lia.
Qed.

Lemma omap_final_slots (k : nat) (x : Block) :
  length (omap id (final_slots k x)) = S k.
Proof.
  unfold final_slots.
  assert (E : forall l : list nat,
            length (omap id (map (fun j => Some (chain x (2 ^ k - 2 ^ j))) l))
            = length l).
  { induction l as [|j l IH]; [reflexivity|]. cbn. now rewrite IH. }
  now rewrite E, length_seq.
Qed.

(** X8. When the last value has been yielded, the [k + 1] nested
    generators of orders [k, k-1, ..., 0] are all still suspended, each
    with its full array: together their arrays hold [(k+1)(k+2)/2]
    entries. *)
Theorem final_round_storage (k : nat) (x : Block) :
  chain_truthy k x = true ->
  (2 * length (held (steps (2 ^ (k + 1) - 1) (P (Z.of_nat k) (Some x))))
   = (k + 1) * (k + 2))%nat.
Proof.
  revert x. induction k as [k IH] using lt_wf_ind. intros x Hx.
  pow2_facts k. destruct k as [|k].
  - change (2 ^ (0 + 1) - 1)%nat with (S (2 ^ 0 - 1)).
    rewrite steps_S, emit_round. reflexivity.
  - assert (E2 : (2 ^ S k = 2 * 2 ^ k)%nat) by apply Nat.pow_succ_r'.
    pose proof (pow2_nat_pos k) as Hpk.
    replace (2 ^ (S k + 1) - 1)%nat with (2 ^ S k + (2 ^ S k - 1))%nat by lia.
    rewrite zip_gen_state by (assumption || lia).
    cbn [held]. rewrite length_app, omap_final_slots.
    unfold subs0. rewrite !map_map, length_concat_seq.
    cbn [nsum]. rewrite nsum_zero.
    + fold (sub (S k) x k).
      assert (Hsub : chain_truthy k (chain x (2 ^ S k - 2 ^ S k)) = true)
        by (apply chain_truthy_sub; [lia|assumption]).
      specialize (IH k ltac:(lia) _ Hsub).
      replace (2 ^ (k + 1) - 1)%nat with (2 ^ S k - 1)%nat in IH
        by (rewrite Nat.add_1_r; reflexivity).
      unfold sub. lia.
    + intros j Hj.
      pose proof (pow2_nat_mono (j + 1) k ltac:(lia)).
      rewrite (finished_state j _ (fun i _ => outputs_ok_all i))
        by (try apply chain_truthy_sub; assumption || lia).
      reflexivity.
Qed.
End Uses.

(** * Blocks that are false *)

Section FalseBlocks.
Context {Block : Type} {OW : OneWay Block}.

Lemma zip_next_false (k : nat) (y : list slot) (rs : list result) (b : Block) :
  truthy b = false ->
  Forall (fun r : result =>
            r.1.2 = Yield None \/ r.1.2 = Yield (Some b) \/ r.1.2 = Stop) rs ->
  Exists (fun r : result => r.1.2 = Yield (Some b)) rs ->
  exists evs, zip_next k y rs = ((evs, Raise RuntimeError), Finished).
Proof.
  intros Hb Hall Hex. unfold zip_next.
  rewrite first_raise_None.
  2:{ eapply Forall_impl; [exact Hall|]. intros r [E|[E|E]] e; rewrite E; discriminate. }
  assert (forallb (fun r : result => is_stop r.1.2) rs = false) as ->.
  { apply not_true_is_false. intros Hf.
    rewrite forallb_forall in Hf. apply Exists_exists in Hex.
    destruct Hex as (r & Hin & E). apply list_elem_of_In in Hin.
    specialize (Hf r Hin). now rewrite E in Hf. }
  assert (List.filter is_true (map (fun r : result => fill r.1.2) rs) = []) as ->;
    [|now eexists].
  clear Hex. induction Hall as [|r rs Hr Hall IH]; [reflexivity|].
  cbn [map List.filter].
  destruct Hr as [E|[E|E]]; rewrite E; cbn [fill is_true]; [|rewrite Hb|]; exact IH.
Qed.

Lemma first_raise_at (l1 l2 : list (@result Block)) (r : result) (e : error) :
  Forall (fun r : result => forall e, r.1.2 <> Raise e) l1 ->
  r.1.2 = Raise e ->
  exists evs, first_raise (l1 ++ r :: l2) = Some (evs, e).
Proof.
  intros Hl Hr. induction Hl as [|[[evs o] s] l1 Ho _ [evs' IH]].
  - destruct r as [[evs o] s]. cbn in Hr. subst o. cbn. now eexists.
  - cbn [app first_raise]. rewrite IH.
    destruct o; try (now eexists). now destruct (Ho e0).
Qed.

Lemma zip_next_raise (k : nat) (y : list slot) (l1 l2 : list result)
    (r : result) (e : error) :
  Forall (fun r : result => forall e, r.1.2 <> Raise e) l1 ->
  r.1.2 = Raise e ->
  exists evs, zip_next k y (l1 ++ r :: l2) = ((evs, Raise e), Finished).
Proof.
  intros Hl Hr. destruct (first_raise_at l1 l2 r e Hl Hr) as [evs E].
  unfold zip_next. rewrite E. now eexists.
Qed.

Section Prefix.
Variables (k : nat) (x : Block) (m : nat).
Hypothesis IHp : forall j, (j < k)%nat -> prefix_ok j.
Hypothesis Hm : (m <= 2 ^ k - 1)%nat.
Hypothesis Hx :
  forall i, (m <= i)%nat -> (i + 2 <= 2 ^ k)%nat -> truthy (chain x i) = true.

Lemma sub_truthy (j : nat) :
  (j < k)%nat -> (m <= 2 ^ k - 2 ^ S j)%nat ->
  chain_truthy j (chain x (2 ^ k - 2 ^ S j)) = true.
Proof.
  intros Hj Hoff. apply chain_truthy_spec. intros i Hi.
  rewrite chain_add.
  pose proof (pow2_nat_mono (S j) k ltac:(lia)) as Hmono.
  pose proof (pow2_nat_pos j). rewrite Nat.pow_succ_r' in *.
  apply Hx; lia.
Qed.

Lemma sub_outcome_prefix (j t : nat) :
  (j < k)%nat -> (t + m + 2 <= 2 ^ k)%nat ->
  (step (steps t (sub k x j))).1.2 = sub_spec k x j t.
Proof.
  intros Hj Ht. rewrite <- sub_spec_eq by assumption. unfold sub.
  pose proof (pow2_nat_mono (S j) k ltac:(lia)) as Hmono.
  pose proof (pow2_nat_pos j) as Hpj.
  assert (E2 : (2 ^ S j = 2 * 2 ^ j)%nat) by apply Nat.pow_succ_r'.
  destruct (Nat.le_gt_cases m (2 ^ k - 2 ^ S j)) as [Hoff|Hoff].
  - apply (outputs_ok_all j). now apply sub_truthy.
  - destruct (IHp j Hj (chain x (2 ^ k - 2 ^ S j))
                (Nat.min (m - (2 ^ k - 2 ^ S j)) (2 ^ j - 1))) as [Hgood _].
    + lia.
    + intros i Hi1 Hi2. rewrite chain_add. apply Hx; lia.
    + apply Hgood. rewrite Nat.add_1_r. lia.
Qed.

Lemma zip_round_value_prefix (t : nat) :
  (t + m + 2 <= 2 ^ k)%nat ->
  zip_next k (final_slots k x) (map (fun s => step (steps t s)) (subs0 k x))
  = ((concat (map (fun s => (obs t s).1) (subs0 k x)),
      Yield (Some (chain x (2 ^ k - 2 - t)))),
     Zipping k (final_slots k x) (map (steps (S t)) (subs0 k x))).
Proof.
  intros Ht.
  rewrite (zip_next_value _ _ _ (chain x (2 ^ k - 2 - t))).
  - now rewrite !map_map.
  - apply Hx; lia.
  - unfold subs0. rewrite map_map. apply Forall_map, Forall_forall.
    intros j Hj. apply list_elem_of_In, in_seq in Hj.
    fold (sub k x j). rewrite sub_outcome_prefix by lia. unfold sub_spec.
    destruct (Nat.ltb_spec t (2 ^ j - 1)); [now left|].
    destruct (Nat.ltb_spec t (2 ^ S j - 1)); [right; now left|right; now right].
  - unfold subs0. rewrite map_map. apply Exists_map, Exists_exists.
    exists (Nat.log2 (S t)).
    pose proof (Nat.log2_spec (S t) ltac:(lia)) as Hl.
    assert (Nat.log2 (S t) < k)%nat by (apply Nat.log2_lt_pow2; lia).
    split; [apply list_elem_of_In, in_seq; lia|].
    fold (sub k x (Nat.log2 (S t))).
    rewrite sub_outcome_prefix by lia. unfold sub_spec.
    destruct (Nat.ltb_spec t (2 ^ Nat.log2 (S t) - 1)); [lia|].
    destruct (Nat.ltb_spec t (2 ^ S (Nat.log2 (S t)) - 1)); [reflexivity|lia].
Qed.

Lemma zip_state_prefix (t : nat) :
  (t + m + 1 <= 2 ^ k)%nat ->
  step (steps (2 ^ k + t) (P (Z.of_nat k) (Some x)))
  = zip_next k (final_slots k x) (map (fun s => step (steps t s)) (subs0 k x)).
Proof.
  pose proof (pow2_nat_pos k) as Hp.
  induction t as [|t IHt]; intros Ht.
  - rewrite Nat.add_0_r.
    replace (2 ^ k)%nat with (S (2 ^ k - 1)) at 1 by lia.
    rewrite steps_S, emit_round. cbn [snd]. apply step_Emitted_final.
  - replace (2 ^ k + S t)%nat with (S (2 ^ k + t)) by lia.
    rewrite steps_S, IHt, zip_round_value_prefix by lia.
    cbn [snd step]. now rewrite map_map.
Qed.

Lemma outputs_prefix (n : nat) :
  (n + m + 2 <= 2 ^ (k + 1))%nat ->
  (obs n (P (Z.of_nat k) (Some x))).2 = out_spec k x n.
Proof.
  intros Hn. pow2_facts k. unfold out_spec.
  destruct (Nat.ltb_spec n (2 ^ k - 1)) as [Hb|Hb].
  - destruct (build_round k x n Hb) as (c & _ & E). now rewrite E.
  - destruct (Nat.ltb_spec n (2 ^ (k + 1) - 1)) as [He|He]; [|lia].
    destruct (Nat.eq_dec n (2 ^ k - 1)%nat) as [->|Hne].
    + unfold obs. rewrite emit_round. cbn [fst snd]. do 3 f_equal. lia.
    + replace n with (2 ^ k + (n - 2 ^ k))%nat at 1 by lia.
      unfold obs. rewrite zip_state_prefix, zip_round_value_prefix by lia.
      cbn [fst snd]. do 3 f_equal. lia.
Qed.

Lemma failing_round :
  (1 <= m)%nat -> truthy (chain x (m - 1)) = false ->
  exists evs,
    step (steps (2 ^ (k + 1) - 1 - m) (P (Z.of_nat k) (Some x)))
    = ((evs, Raise RuntimeError), Finished).
Proof.
  intros Hm1 Hfalse. pow2_facts k.
  set (t := (2 ^ k - 1 - m)%nat).
  replace (2 ^ (k + 1) - 1 - m)%nat with (2 ^ k + t)%nat by (unfold t; lia).
  rewrite zip_state_prefix by (unfold t; lia).
  pose proof (Nat.log2_spec (S t) ltac:(lia)) as Hl.
  set (j0 := Nat.log2 (S t)) in *.
  assert (Hj0 : (j0 < k)%nat) by (apply Nat.log2_lt_pow2; unfold t; lia).
  pose proof (pow2_nat_mono (S j0) k ltac:(lia)) as Hmono.
  pose proof (pow2_nat_pos j0) as Hpj.
  assert (E2 : (2 ^ S j0 = 2 * 2 ^ j0)%nat) by apply Nat.pow_succ_r'.
  (* the sub-generators of smaller order are exhausted *)
  assert (Hlow : forall j, (j < j0)%nat ->
                 (step (steps t (sub k x j))).1.2 = Stop).
  { intros j Hj.
    pose proof (pow2_nat_mono (S j) j0 ltac:(lia)) as Hmj.
    pose proof (pow2_nat_mono (S j) k ltac:(lia)) as Hmk.
    assert (Hs : (m <= 2 ^ k - 2 ^ S j)%nat) by (unfold t in *; lia).
    pose proof (outputs_ok_all j _ (sub_truthy j ltac:(lia) Hs) t) as E.
    unfold obs in E. unfold sub. rewrite E. clear E.
    unfold out_spec. rewrite Nat.add_1_r. pose proof (pow2_nat_pos j).
    destruct (Nat.ltb_spec t (2 ^ j - 1)); [rewrite Nat.pow_succ_r' in Hmj; lia|].
    destruct (Nat.ltb_spec t (2 ^ S j - 1)); [lia|reflexivity]. }
  (* those of larger order are still building *)
  assert (Hhigh : forall j, (j0 < j < k)%nat ->
                  (step (steps t (sub k x j))).1.2 = Yield None).
  { intros j Hj. pose proof (pow2_nat_mono (S j0) j ltac:(lia)) as Hmj.
    unfold sub. destruct (build_round j (chain x (2 ^ k - 2 ^ S j)) t ltac:(lia))
      as (c & _ & E).
    unfold obs in E. now rewrite E. }
  destruct (Nat.eq_dec (S t) (2 ^ j0)%nat) as [Etop|Hntop].
  - (* the false Block is the first value of the sub-generator of order [j0] *)
    apply (zip_next_false _ _ _ (chain x (m - 1)) Hfalse).
    + unfold subs0. rewrite map_map. apply Forall_map, Forall_forall.
      intros j Hj. apply list_elem_of_In, in_seq in Hj. fold (sub k x j).
      destruct (Nat.lt_trichotomy j j0) as [Hlt|[->|Hgt]].
      * right. right. now apply Hlow.
      * right. left. unfold sub.
        replace t with (2 ^ j0 - 1)%nat by lia.
        rewrite emit_round. cbn [fst snd]. rewrite chain_add.
        do 3 f_equal. unfold t in *. lia.
      * left. apply Hhigh. lia.
    + unfold subs0. rewrite map_map. apply Exists_map, Exists_exists.
      exists j0. split; [apply list_elem_of_In, in_seq; lia|].
      fold (sub k x j0). unfold sub.
      replace t with (2 ^ j0 - 1)%nat by lia.
      rewrite emit_round. cbn [fst snd]. rewrite chain_add.
      do 3 f_equal. unfold t in *. lia.
  - (* it is a later value of that sub-generator, which raises itself *)
    destruct (IHp j0 Hj0 (chain x (2 ^ k - 2 ^ S j0))
                (m - (2 ^ k - 2 ^ S j0))%nat) as [_ Hbad].
    + unfold t in *. lia.
    + intros i Hi1 Hi2. rewrite chain_add. apply Hx; unfold t in *; lia.
    + destruct Hbad as [evs Ebad].
      * unfold t in *. lia.
      * rewrite chain_add.
        replace (m - (2 ^ k - 2 ^ S j0) - 1 + (2 ^ k - 2 ^ S j0))%nat
          with (m - 1)%nat by (unfold t in *; lia).
        exact Hfalse.
      * replace (2 ^ (j0 + 1) - 1 - (m - (2 ^ k - 2 ^ S j0)))%nat with t in Ebad
          by (rewrite Nat.add_1_r; unfold t in *; lia).
        unfold subs0.
        replace (seq 0 k) with (seq 0 j0 ++ j0 :: seq (S j0) (k - S j0)).
        2:{ change (j0 :: seq (S j0) (k - S j0)) with (seq j0 (S (k - S j0))).
            rewrite <- seq_app. f_equal. lia. }
        rewrite !map_app. cbn [map].
        apply zip_next_raise.
        -- rewrite map_map. apply Forall_map, Forall_forall.
           intros j Hj. apply list_elem_of_In, in_seq in Hj. fold (sub k x j).
           intros e. rewrite Hlow by lia. discriminate.
        -- now rewrite Ebad.
Qed.
End Prefix.

Lemma prefix_ok_all (k : nat) : prefix_ok k.
Proof.
  induction k as [k IH] using lt_wf_ind. intros y m Hm Hy. split.
  - intros n Hn. now apply (outputs_prefix k y m IH Hm Hy).
  - intros Hm1 Hf. now apply (failing_round k y m IH Hm Hy).
Qed.

(** X9. If the chain value [x_i], below the top one, is false in Python's
    sense (as the integer [0] is) while those above it are true, the
    traversal reveals the values above [x_i] as usual, raises
    [RuntimeError] in the round in which [x_i] is due, and is exhausted
    from then on: no value of index [i] or below is revealed. *)
Theorem false_block_raises (k : nat) (x : Block) (i : nat) :
  (i + 2 <= 2 ^ k)%nat -> truthy (chain x i) = false ->
  (forall i', (i < i')%nat -> (i' + 2 <= 2 ^ k)%nat -> truthy (chain x i') = true) ->
  (forall n, (n < 2 ^ k - 1)%nat ->
     (obs n (P (Z.of_nat k) (Some x))).2 = Yield None)
  /\ (forall i', (i < i' < 2 ^ k)%nat ->
        (obs (2 ^ (k + 1) - 2 - i') (P (Z.of_nat k) (Some x))).2
        = Yield (Some (chain x i')))
  /\ (obs (2 ^ (k + 1) - 2 - i) (P (Z.of_nat k) (Some x))).2 = Raise RuntimeError
  /\ (forall n, (obs (2 ^ (k + 1) - 1 - i + n) (P (Z.of_nat k) (Some x))).2 = Stop).
Proof.
  intros Hi Hfalse Habove. pow2_facts k.
  destruct (prefix_ok_all k x (S i)) as [Hgood Hbad]; [lia| |].
  { intros i' H1 H2. apply Habove; lia. }
  destruct Hbad as [evs Ebad]; [lia|now rewrite Nat.sub_succ, Nat.sub_0_r|].
  replace (2 ^ (k + 1) - 1 - S i)%nat with (2 ^ (k + 1) - 2 - i)%nat in Ebad by lia.
  split; [|split; [|split]].
  - intros n Hn. rewrite Hgood by lia. unfold out_spec.
    destruct (Nat.ltb_spec n (2 ^ k - 1)); [reflexivity|lia].
  - intros i' Hi'. rewrite Hgood by lia. unfold out_spec.
    destruct (Nat.ltb_spec (2 ^ (k + 1) - 2 - i') (2 ^ k - 1)); [lia|].
    destruct (Nat.ltb_spec (2 ^ (k + 1) - 2 - i') (2 ^ (k + 1) - 1)); [|lia].
    do 3 f_equal. lia.
  - unfold obs. now rewrite Ebad.
  - intros n. unfold obs.
    replace (2 ^ (k + 1) - 1 - i + n)%nat with (n + S (2 ^ (k + 1) - 2 - i))%nat by lia.
    rewrite steps_add, steps_S, Ebad. cbn [snd]. now rewrite steps_Finished.
Qed.
End FalseBlocks.

(** * The further properties at concrete inputs *)

(** Order 4 from [seed0], emission round [n + 7]. *)
Lemma emission_work_bound_witness :
  chain_truthy 4 seed0 = true /\ (7 <= 2 ^ 4 - 1)%nat
  /\ (cost (2 ^ 4 - 1 + 7) (P (Z.of_nat 4) (Some seed0)) <= (4 + 1) / 2)%nat
  /\ ((2 <= 4)%nat ->
      cost (2 ^ 4 - 1 + (2 ^ (4 - 1) - 1)) (P (Z.of_nat 4) (Some seed0))
      = ((4 + 1) / 2)%nat).
Proof.
  split; [reflexivity|]. split; [simpl; lia|].
  apply (emission_work_bound 4 seed0 7); [reflexivity|simpl; lia].
Defined.

(** Order 3 from [seed0], against order 2 from [toy_f seed0]. *)
Lemma emission_work_shape_witness :
  chain_truthy 3 seed0 = true /\ chain_truthy 2 (toy_f seed0) = true
  /\ (forall t, (1 <= t < 2 ^ 2)%nat ->
        Z.of_nat (cost (2 ^ 3 - 1 + t) (P (Z.of_nat 3) (Some seed0)))
        = (Z.log2 (Z.of_nat t) + 2 + Z.of_nat t mod 2) / 2)
  /\ cost (2 ^ 3 - 1 + 2 ^ 2) (P (Z.of_nat 3) (Some seed0)) = 0%nat
  /\ (forall u, (1 <= u <= 2 ^ 2 - 1)%nat ->
        cost (2 ^ 3 - 1 + (2 ^ 2 + u)) (P (Z.of_nat 3) (Some seed0))
        = cost (2 ^ 2 - 1 + u) (P (Z.of_nat 2) (Some (toy_f seed0)))).
Proof.
  split; [reflexivity|]. split; [reflexivity|].
  apply (emission_work_shape 2 seed0 (toy_f seed0)); reflexivity.
Defined.

(** Order 2 from [seed0], after build round 2. *)
Lemma build_round_state_witness :
  (1 <= 2 <= 2 ^ 2 - 1)%nat
  /\ exists y i g,
       steps 2 (P (Z.of_nat 2) (Some seed0)) = Building 2 (y, i, g) 2
       /\ length y = 3%nat /\ (i <= 2)%nat /\ (g < 2 ^ i)%nat
       /\ (cum 2 2 + g + 2 ^ i = 2 ^ 2)%nat
       /\ (forall j, (j < i)%nat -> y !! j = Some None)
       /\ y !! i = Some (Some (chain seed0 (cum 2 2)))
       /\ (forall j, (i < j <= 2)%nat ->
             y !! j = Some (Some (chain seed0 (2 ^ 2 - 2 ^ j)))).
Proof.
  split; [simpl; lia|]. apply (build_round_state 2 seed0 2). simpl. lia.
Defined.

(** The order-2 run of the driver from [seed0]. *)
Lemma print_chain_labels_witness :
  chain_truthy 2 seed0 = true /\ (2 ^ (2 + 1) <= 8)%nat
  /\ print_chain 8 2 seed0
     = (Header 2 (2 ^ Z.of_nat 2) (2 ^ (Z.of_nat 2 + 1) - 1)
          :: map (fun r => if (r <? 2 ^ 2)%nat then Dash r
                           else Labelled r (Z.of_nat (2 ^ (2 + 1) - 1 - r))
                                  (chain seed0 (2 ^ (2 + 1) - 1 - r)))
               (seq 1 (2 ^ (2 + 1) - 1))
          ++ [Blank], Printed).
Proof.
  split; [reflexivity|]. split; [simpl; lia|].
  apply (print_chain_labels 8 2 seed0); [reflexivity|simpl; lia].
Defined.

(** Order 2 from [seed0], emission rounds [n + 1] and [n + 2]. *)
Lemma revealed_values_verify_witness :
  chain_truthy 2 seed0 = true /\ (1 <= 2 <= 2 ^ 2 - 1)%nat
  /\ (exists v w,
        (obs (2 ^ 2 - 1 + 2 - 1) (P (Z.of_nat 2) (Some seed0))).2 = Yield (Some v)
        /\ (obs (2 ^ 2 - 1 + 2) (P (Z.of_nat 2) (Some seed0))).2 = Yield (Some w)
        /\ f w = v)
  /\ (obs (2 ^ (2 + 1) - 2) (P (Z.of_nat 2) (Some seed0))).2 = Yield (Some seed0).
Proof.
  split; [reflexivity|]. split; [simpl; lia|].
  apply (revealed_values_verify 2 seed0 2); [reflexivity|simpl; lia].
Defined.

(** Order 2 from [seed0]: six entries after the last value. *)
Lemma final_round_storage_witness :
  chain_truthy 2 seed0 = true
  /\ (2 * length (held (steps (2 ^ (2 + 1) - 1) (P (Z.of_nat 2) (Some seed0))))
      = (2 + 1) * (2 + 2))%nat.
Proof.
  split; [reflexivity|]. apply (final_round_storage 2 seed0). reflexivity.
Defined.

(** Integer Blocks, order 3 from the seed [-5]: the chain runs
    [-5, -4, ..., 2], and [x_5 = 0] is false. *)
Lemma false_block_raises_witness :
  (5 + 2 <= 2 ^ 3)%nat
  /\ @truthy Z int_oneway (@chain Z int_oneway (-5) 5) = false
  /\ (forall i', (5 < i')%nat -> (i' + 2 <= 2 ^ 3)%nat ->
        @truthy Z int_oneway (@chain Z int_oneway (-5) i') = true)
  /\ (forall n, (n < 2 ^ 3 - 1)%nat ->
        (@obs Z int_oneway n (P (Z.of_nat 3) (Some (-5)))).2 = Yield None)
  /\ (forall i', (5 < i' < 2 ^ 3)%nat ->
        (@obs Z int_oneway (2 ^ (3 + 1) - 2 - i') (P (Z.of_nat 3) (Some (-5)))).2
        = Yield (Some (@chain Z int_oneway (-5) i')))
  /\ (@obs Z int_oneway (2 ^ (3 + 1) - 2 - 5) (P (Z.of_nat 3) (Some (-5)))).2
     = Raise RuntimeError
  /\ (forall n,
        (@obs Z int_oneway (2 ^ (3 + 1) - 1 - 5 + n) (P (Z.of_nat 3) (Some (-5)))).2
        = Stop).
Proof.
  assert (Ha : forall i', (5 < i')%nat -> (i' + 2 <= 2 ^ 3)%nat ->
               @truthy Z int_oneway (@chain Z int_oneway (-5) i') = true).
  { intros i' H1 H2. assert (i' = 6%nat) as -> by (simpl in H2; lia). reflexivity. }
  split; [simpl; lia|]. split; [reflexivity|]. split; [exact Ha|].
  apply (@false_block_raises Z int_oneway 3 (-5) 5); [simpl; lia|reflexivity|exact Ha].
Defined.

(** Order 3, build round 4: the first round with an evaluation. *)
Lemma tS_zero_iff_witness :
  1 <= 4 <= 2 ^ Z.of_nat 3 - 1
  /\ (tS (Z.of_nat 3) 4 = 0 <-> 4 < 2 ^ (Z.of_nat 3 - 1))
  /\ (2 ^ (Z.of_nat 3 - 1) <= 4 -> 1 <= tS (Z.of_nat 3) 4).
Proof.
  split; [vm_compute; split; discriminate|].
  apply (tS_zero_iff 3 4). vm_compute. split; discriminate.
Defined.
